(** * Keymap helpers for the Lily58 LatAm layout: a shallow embedding

    The development follows three Python programs of the repository:
    - [kbmap_qmk_helper.py]: the static resolver with QMK suggestions,
    - [keymap_programming_keys.py]: the static resolver with the [--all] option,
    - [keyboard_combo_inspector.py]: the live modifier tracker (Tk and evdev).

    Python [str] values are kept as their UTF-8 bytes in [string]; a dict read
    by key is a [gmap]; a dict that is iterated is an association list in
    insertion order; a Python exception is [None] in the [option] monad. *)

From stdpp Require Import base strings list gmap option pretty sorting.
From Stdlib Require Import ZArith Ascii.

(** ** Python strings *)

Module PyStr.

(** What [str.isalpha], [str.isdigit], [str.isalnum], [str.upper] and
    [str.lower] answer on a code point outside ASCII comes from the Unicode database of the
    interpreter. The programs only read it; it is a parameter here. A code
    point is handed over as its UTF-8 bytes. *)
Class Unicode := {
  uni_isalpha : string → bool;
  uni_isdigit : string → bool;
  uni_isalnum : string → bool;
  uni_upper : string → string;
  uni_lower : string → string
}.

Definition byte_is_ascii (a : ascii) : bool :=
  let 'Ascii _ _ _ _ _ _ _ b7 := a in negb b7.

(** A continuation byte of UTF-8 is [10xxxxxx]. *)
Definition byte_is_cont (a : ascii) : bool :=
  let 'Ascii _ _ _ _ _ _ b6 b7 := a in b7 && negb b6.

Definition byte_in (lo hi : N) (a : ascii) : bool :=
  ((lo <=? N_of_ascii a) && (N_of_ascii a <=? hi))%N.

Definition ascii_isupper : ascii → bool := byte_in 65 90.
Definition ascii_islower : ascii → bool := byte_in 97 122.
Definition ascii_isdigit : ascii → bool := byte_in 48 57.
Definition ascii_isalpha (a : ascii) : bool := ascii_isupper a || ascii_islower a.

Definition ascii_upper (a : ascii) : ascii :=
  if ascii_islower a then ascii_of_N (N_of_ascii a - 32) else a.
Definition ascii_lower (a : ascii) : ascii :=
  if ascii_isupper a then ascii_of_N (N_of_ascii a + 32) else a.

(** [split_cp s] cuts [s] at every byte that starts a code point: the first
    component holds the continuation bytes [s] begins with, the second the
    code points that follow. *)
Fixpoint split_cp (s : string) : string * list string :=
  match s with
  | EmptyString => (EmptyString, [])
  | String a r =>
      let '(k, cs) := split_cp r in
      if byte_is_cont a then (String a k, cs) else (EmptyString, String a k :: cs)
  end.

(** The code points of a string, each as its own string. *)
Definition chars (s : string) : list string :=
  let '(k, cs) := split_cp s in
  match k with EmptyString => cs | _ => k :: cs end.

(** [len(s)] *)
Definition len (s : string) : nat := length (chars s).

(** A string is true in a condition when it is not empty. *)
Definition truthy (s : string) : bool :=
  match s with EmptyString => false | _ => true end.

(** [s.startswith(p)] *)
Definition startswith (s p : string) : bool := String.prefix p s.

(** [s[:-1]] *)
Definition drop_last (s : string) : string :=
  String.concat "" (take (len s - 1) (chars s)).

Section classes.
Context `{Unicode}.

Definition cp_isalpha (c : string) : bool :=
  match c with
  | String a EmptyString => if byte_is_ascii a then ascii_isalpha a else uni_isalpha c
  | _ => uni_isalpha c
  end.

Definition cp_isdigit (c : string) : bool :=
  match c with
  | String a EmptyString => if byte_is_ascii a then ascii_isdigit a else uni_isdigit c
  | _ => uni_isdigit c
  end.

Definition cp_upper (c : string) : string :=
  match c with
  | String a EmptyString =>
      if byte_is_ascii a then String (ascii_upper a) EmptyString else uni_upper c
  | _ => uni_upper c
  end.

Definition cp_lower (c : string) : string :=
  match c with
  | String a EmptyString =>
      if byte_is_ascii a then String (ascii_lower a) EmptyString else uni_lower c
  | _ => uni_lower c
  end.

(** [s.isalpha()]: every code point is alphabetic and there is at least one. *)
Definition isalpha (s : string) : bool :=
  match chars s with [] => false | cs => forallb cp_isalpha cs end.

(** [s.isdigit()] *)
Definition isdigit (s : string) : bool :=
  match chars s with [] => false | cs => forallb cp_isdigit cs end.

Definition cp_isalnum (c : string) : bool :=
  match c with
  | String a EmptyString =>
      if byte_is_ascii a then ascii_isalpha a || ascii_isdigit a else uni_isalnum c
  | _ => uni_isalnum c
  end.

(** [s.isalnum()] *)
Definition isalnum (s : string) : bool :=
  match chars s with [] => false | cs => forallb cp_isalnum cs end.

(** [s.upper()] and [s.lower()], code point by code point. The programs call
    them on strings of length one only, where no context rule applies. *)
Definition upper (s : string) : string := String.concat "" (cp_upper <$> chars s).
Definition lower (s : string) : string := String.concat "" (cp_lower <$> chars s).
End classes.

(** The database restricted to Latin-1 (U+0080 to U+00FF, two bytes each in
    UTF-8, lead byte [0xC2] or [0xC3]); it is what the examples below are
    evaluated with. Beyond U+00FF it knows no letter, no digit and no case. *)
Definition latin1_cp (c : string) : option N :=
  match c with
  | String a (String b EmptyString) =>
      if byte_is_cont b then
        if (N_of_ascii a =? 194)%N then Some (N_of_ascii b)
        else if (N_of_ascii a =? 195)%N then Some (N_of_ascii b + 64)%N
        else None
      else None
  | _ => None
  end.

Definition latin1_utf8 (n : N) : string :=
  if (n <? 192)%N then String (ascii_of_N 194) (String (ascii_of_N n) EmptyString)
  else String (ascii_of_N 195) (String (ascii_of_N (n - 64)) EmptyString).

Definition latin1_isalpha (c : string) : bool :=
  match latin1_cp c with
  | Some n =>
      ((n =? 170) || (n =? 181) || (n =? 186)
       || ((192 <=? n) && (n <=? 255) && negb (n =? 215) && negb (n =? 247)))%N
  | None => false
  end.

Definition latin1_isdigit (c : string) : bool :=
  match latin1_cp c with
  | Some n => ((n =? 178) || (n =? 179) || (n =? 185))%N
  | None => false
  end.

(** The superscripts and the three fractions are numeric, hence alphanumeric. *)
Definition latin1_isalnum (c : string) : bool :=
  latin1_isalpha c ||
  match latin1_cp c with
  | Some n => ((n =? 178) || (n =? 179) || (n =? 185) || ((188 <=? n) && (n <=? 190)))%N
  | None => false
  end.

Definition latin1_upper (c : string) : string :=
  match latin1_cp c with
  | Some n =>
      if (n =? 181)%N then String (ascii_of_N 206) (String (ascii_of_N 156) EmptyString)
      else if (n =? 223)%N then "SS"
      else if (n =? 255)%N then String (ascii_of_N 197) (String (ascii_of_N 184) EmptyString)
      else if ((224 <=? n) && (n <=? 254) && negb (n =? 247))%N then latin1_utf8 (n - 32)
      else c
  | None => c
  end.

Definition latin1_lower (c : string) : string :=
  match latin1_cp c with
  | Some n =>
      if ((192 <=? n) && (n <=? 222) && negb (n =? 215))%N then latin1_utf8 (n + 32) else c
  | None => c
  end.

Definition Latin1 : Unicode :=
  {| uni_isalpha := latin1_isalpha; uni_isdigit := latin1_isdigit;
     uni_isalnum := latin1_isalnum;
     uni_upper := latin1_upper; uni_lower := latin1_lower |}.

End PyStr.

Import PyStr.


(** [sub in s] for two strings. *)
Fixpoint str_in (sub s : string) : bool :=
  String.prefix sub s ||
  match s with
  | EmptyString => false
  | String _ r => str_in sub r
  end.

(** The double quote, which a literal cannot hold. *)
Definition dquote : string := String "034"%char EmptyString.

(** ** Python containers *)

(** A dict literal, or a dict built by successive assignments and only read
    by key afterwards: a later binding of a key replaces an earlier one. *)
Definition pydict {V} (l : list (string * V)) : gmap string V :=
  foldl (λ m '(k, v), <[k := v]> m) ∅ l.

(** [d[k] = v] on a dict that is iterated later: a key already present keeps
    its place in the iteration order, a new key goes last. *)
Fixpoint dict_set {V} (d : list (Z * V)) (k : Z) (v : V) : list (Z * V) :=
  match d with
  | [] => [(k, v)]
  | (k', v') :: r =>
      if decide (k' = k) then (k, v) :: r else (k', v') :: dict_set r k v
  end.

(** [enumerate(l)] *)
Definition enumerate {A} (l : list A) : list (nat * A) := imap (λ i x, (i, x)) l.

(** [x or y] where [x] is [None] or a string. *)
Definition or_else (x : option string) (y : string) : string :=
  match x with
  | Some s => if truthy s then s else y
  | None => y
  end.

(** [not x] where [x] is [None] or a string. *)
Definition falsy (x : option string) : bool :=
  match x with
  | Some s => negb (truthy s)
  | None => true
  end.

(** An entry of the reverse index: [(code, lvl, sym, tuple(syms))]. *)
Definition occurrence : Type := Z * nat * string * list string.

Definition occ_lvl (t : occurrence) : nat := t.1.1.2.
Definition occ_sym (t : occurrence) : string := t.1.2.
Definition occ_row (t : occurrence) : list string := t.2.

(** [list.sort(key=lambda t: t[1])] and [sorted(l, key=lambda t: t[1])].
    Python's sort is stable, and a stable sort has one possible result; it is
    computed here by insertion from the right, an element going before the
    first one whose level is not smaller. *)
Fixpoint insert_by_lvl (x : occurrence) (l : list occurrence) : list occurrence :=
  match l with
  | [] => [x]
  | y :: r => if (occ_lvl x <=? occ_lvl y)%nat then x :: l else y :: insert_by_lvl x r
  end.

Definition sort_by_lvl (l : list occurrence) : list occurrence :=
  foldr insert_by_lvl [] l.

(** One line of the [xmodmap -pke] listing as the parsers see it after
    [pat.match(line.strip())]: the pattern does not match, or it does, and
    then the first group is read by [int] and the second cut by [split]. *)
Inductive pke_line : Type :=
| NoMatch
| Keycode (code : Z) (tokens : list string).

(** [while len(syms) < 4: syms.append("NoSymbol")], the loop run as many times
    as entries are missing. *)
Fixpoint pad_loop (n : nat) (syms : list string) : list string :=
  match n with
  | O => syms
  | S k => pad_loop k (syms ++ ["NoSymbol"])
  end.

Definition pad4 (syms : list string) : list string := pad_loop (4 - length syms) syms.

(** ** kbmap_qmk_helper.py *)

Module KbmapQmkHelper.

Definition WANTED_CHARS : list string :=
  chars "abcdefghijklmnopqrstuvwxyz" ++ ["ñ"] ++
  chars "ABCDEFGHIJKLMNOPQRSTUVWXYZ" ++ ["Ñ"] ++
  chars "0123456789" ++
  chars ("[]{}()<>/\|~^`@#$%&*+-_=;:," +:+ dquote +:+ "'!?.") ++
  ["¿"; "¡"; "°"; "¬"; "´"] ++
  ["@"; "`"; "ñ"; "Ñ"].

Definition DEAD_PREFIX : string := "dead_".

Definition KEYSYM_TO_CHAR : gmap string string := pydict [
  ("parenleft", "("); ("parenright", ")");
  ("bracketleft", "["); ("bracketright", "]");
  ("braceleft", "{"); ("braceright", "}");
  ("less", "<"); ("greater", ">");
  ("slash", "/"); ("backslash", "\"); ("bar", "|");
  ("asciitilde", "~"); ("asciicircum", "^"); ("grave", "`");
  ("at", "@"); ("numbersign", "#"); ("dollar", "$");
  ("percent", "%"); ("ampersand", "&"); ("asterisk", "*");
  ("minus", "-"); ("underscore", "_");
  ("equal", "="); ("plus", "+");
  ("semicolon", ";"); ("colon", ":");
  ("quotedbl", dquote); ("apostrophe", "'");
  ("comma", ","); ("period", ".");
  ("question", "?"); ("exclam", "!");
  ("exclamdown", "¡"); ("questiondown", "¿");
  ("degree", "°"); ("notsign", "¬");
  ("space", " ");
  ("ntilde", "ñ"); ("Ntilde", "Ñ");
  ("dead_grave", "`");
  ("dead_acute", "´");
  ("dead_tilde", "~")
].

Definition keysym_to_char (sym : string) : option string :=
  if startswith sym DEAD_PREFIX then Some sym
  else match KEYSYM_TO_CHAR !! sym with
       | Some c => Some c
       | None => if (len sym =? 1)%nat then Some sym else None
       end.

Definition parse_xmodmap_pke (pke : list pke_line) : list (Z * list string) :=
  foldl (λ keymap line,
    match line with
    | NoMatch => keymap
    | Keycode code tokens =>
        let syms := filter (λ t, truthy t = true) tokens in
        let syms := pad4 syms in
        dict_set keymap code (take 4 syms)
    end) [] pke.

Definition level_to_combo (lvl : nat) : string :=
  default "" (({[ 0%nat := ""; 1%nat := "Shift+"; 2%nat := "AltGr+";
                  3%nat := "Shift+AltGr+" ]} : gmap nat string) !! lvl).

(** The [for i in [0,1,2,3]] loop of [prefer_key_label]: [Some (Some ch)] when
    it returns [ch], [Some None] when it runs to its end, [None] when
    [level_syms[i]] raises. *)
Fixpoint label_scan (level_syms : list string) (idx : list nat) : option (option string) :=
  match idx with
  | [] => Some None
  | i :: rest =>
      sym ← level_syms !! i;
      match keysym_to_char sym with
      | Some ch =>
          if truthy ch && negb (startswith ch DEAD_PREFIX) then Some (Some ch)
          else label_scan level_syms rest
      | None => label_scan level_syms rest
      end
  end.

Definition prefer_key_label (level_syms : list string) : option string :=
  r ← label_scan level_syms [0; 1; 2; 3]%nat;
  match r with
  | Some ch => Some ch
  | None => s0 ← level_syms !! 0%nat; Some (or_else (keysym_to_char s0) s0)
  end.

(** The loop body of [build_positions] for one [(lvl, sym)] of the row of [code]. *)
Definition index_level (code : Z) (syms : list string)
    (pos : gmap string (list occurrence)) (ls : nat * string)
  : gmap string (list occurrence) :=
  let '(lvl, sym) := ls in
  if decide (sym = "NoSymbol") then pos
  else match keysym_to_char sym with
       | None => pos
       | Some ch =>
           if negb (truthy ch) || startswith ch DEAD_PREFIX then pos
           else <[ch := default [] (pos !! ch) ++ [(code, lvl, sym, syms)]]> pos
       end.

Definition build_positions (keymap : list (Z * list string))
  : gmap string (list occurrence) :=
  foldl (λ pos '(code, syms), foldl (index_level code syms) pos (enumerate syms))
        ∅ keymap.

Section resolver.
Context `{Unicode}.

Definition BASE_KEYSYM_TO_QMK : gmap string string := pydict (
  ((λ c, (c, "KC_" +:+ upper c)) <$> chars "abcdefghijklmnopqrstuvwxyz") ++
  [("ntilde", "KC_SCLN")] ++
  ((λ d, (d, "KC_" +:+ d)) <$> chars "0123456789") ++
  [("minus", "KC_MINS");
   ("equal", "KC_EQL");
   ("bracketleft", "KC_LBRC");
   ("bracketright", "KC_RBRC");
   ("backslash", "KC_BSLS");
   ("slash", "KC_SLSH");
   ("semicolon", "KC_SCLN");
   ("apostrophe", "KC_QUOT");
   ("comma", "KC_COMM");
   ("period", "KC_DOT");
   ("grave", "KC_GRV");
   ("space", "KC_SPC")]).

(** The marker of an unknown base key. *)
Definition unknown_base (base_keysym : string) : string :=
  "<KC_BASE_DESCONOCIDA:keysym=" +:+ base_keysym +:+ ">".

(** The first assignment of [qmk_base]: the letter rule, the digit rule, the table. *)
Definition qmk_base_direct (base_keysym : string) : option string :=
  if (len base_keysym =? 1)%nat && isalpha base_keysym then Some ("KC_" +:+ upper base_keysym)
  else if (len base_keysym =? 1)%nat && isdigit base_keysym then Some ("KC_" +:+ base_keysym)
  else BASE_KEYSYM_TO_QMK !! base_keysym.

(** The branch under [if not qmk_base], given the label of the key. *)
Definition qmk_base_fallback (base_keysym key_label : string) : string :=
  if (len key_label =? 1)%nat && isalpha key_label then "KC_" +:+ upper key_label
  else if (len key_label =? 1)%nat && isdigit key_label then "KC_" +:+ key_label
  else unknown_base base_keysym.

(** The modifiers stacked on the base key according to the level. *)
Definition stack_mods (lvl : nat) (qmk_base : string) : string :=
  match lvl with
  | 0 => qmk_base
  | 1 => "S(" +:+ qmk_base +:+ ")"
  | 2 => "RALT(" +:+ qmk_base +:+ ")"
  | _ => "S(RALT(" +:+ qmk_base +:+ "))"
  end%nat.

(** The base key [qmk_combo_for] settles on for an entry; [None] when indexing
    the row raises. *)
Definition qmk_base_for (code_entry : occurrence) : option string :=
  let '(code, lvl, sym, level_syms) := code_entry in
  s0 ← level_syms !! 0%nat;
  let base_keysym := if decide (s0 ≠ "NoSymbol") then s0 else sym in
  let qmk_base := qmk_base_direct base_keysym in
  if falsy qmk_base then
    key_label ← prefer_key_label level_syms;
    Some (qmk_base_fallback base_keysym key_label)
  else qmk_base.

Definition qmk_combo_for (code_entry : occurrence) : option (string * string * string) :=
  let '(code, lvl, sym, level_syms) := code_entry in
  let combo_humano := level_to_combo lvl in
  qmk_base ← qmk_base_for code_entry;
  let qmk := stack_mods lvl qmk_base in
  Some (combo_humano, sym, qmk).

(** One turn of the loop of [main] over [WANTED_CHARS]. The state is the index,
    whose lists [found.sort] reorders in place, and the rows so far. *)
Definition main_step (st : gmap string (list occurrence) * list (list string)) (c : string)
  : option (gmap string (list occurrence) * list (list string)) :=
  let '(positions, rows) := st in
  match positions !! c with
  | None | Some [] => Some st
  | Some found =>
      let found := sort_by_lvl found in
      let positions := <[c := found]> positions in
      first ← head found;
      '(combo_hum, keysym, qmk) ← qmk_combo_for first;
      key_label ← prefer_key_label (occ_row first);
      Some (positions,
            rows ++ [[c; if truthy combo_hum then drop_last combo_hum else "—";
                      keysym; qmk; key_label]])
  end.

(** The rows [main] hands to [render], from the parsed keymap. *)
Definition main_rows (keymap : list (Z * list string)) : option (list (list string)) :=
  snd <$> foldl (λ st c, st ≫= λ st, main_step st c)
                (Some (build_positions keymap, [])) WANTED_CHARS.

End resolver.

End KbmapQmkHelper.

(** ** keymap_programming_keys.py *)

Module KeymapProgrammingKeys.

Definition WANTED_CHARS : list string :=
  chars "abcdefghijklmnopqrstuvwxyz" ++ ["ñ"] ++
  chars "0123456789" ++
  chars ("[]{}()<>/\|~^`@#$%&*+-_=;:," +:+ dquote +:+ "'!?.") ++
  ["¿"; "¡"; "°"; "¬"].

Definition KEYSYM_TO_CHAR : gmap string string := pydict [
  ("parenleft", "("); ("parenright", ")");
  ("bracketleft", "["); ("bracketright", "]");
  ("braceleft", "{"); ("braceright", "}");
  ("less", "<"); ("greater", ">");
  ("slash", "/"); ("backslash", "\");
  ("bar", "|"); ("asciitilde", "~");
  ("asciicircum", "^"); ("grave", "`");
  ("at", "@"); ("numbersign", "#"); ("dollar", "$");
  ("percent", "%"); ("ampersand", "&"); ("asterisk", "*");
  ("minus", "-"); ("underscore", "_");
  ("equal", "="); ("plus", "+");
  ("semicolon", ";"); ("colon", ":");
  ("quotedbl", dquote); ("apostrophe", "'");
  ("comma", ","); ("period", ".");
  ("question", "?"); ("exclam", "!");
  ("exclamdown", "¡"); ("questiondown", "¿");
  ("degree", "°"); ("notsign", "¬");
  ("ntilde", "ñ"); ("Ntilde", "Ñ");
  ("space", " ")
].

Definition DEAD_PREFIX : string := "dead_".

Definition parse_pke (pke : list pke_line) : list (Z * list string) :=
  foldl (λ keymap line,
    match line with
    | NoMatch => keymap
    | Keycode code tokens =>
        let syms := filter (λ t, truthy t = true) tokens in
        let syms := pad4 syms in
        dict_set keymap code (take 4 syms)
    end) [] pke.

Section resolver.
Context `{Unicode}.

Definition keysym_to_char (sym : string) : option string :=
  if startswith sym DEAD_PREFIX then Some sym
  else match KEYSYM_TO_CHAR !! sym with
       | Some c => Some c
       | None =>
           if (len sym =? 1)%nat then Some sym
           else if (len sym =? 1)%nat && isalpha sym then Some sym
           else if (len sym =? 1)%nat then Some sym
           else None
       end.

Definition normalize_char (c : string) : string := c.

(** The characters accepted as a label besides letters and digits. *)
Definition LABEL_SYMBOLS : string :=
  "-_=+[]{}()<>/\\|;:'\" +:+ dquote +:+ ",.#!?@^~`%$&*°¬¿¡ ".

(** The [for i in [0,1,2,3]] loop of [prefer_key_label], as in
    [KbmapQmkHelper.label_scan]. *)
Fixpoint label_scan (level_syms : list string) (idx : list nat) : option (option string) :=
  match idx with
  | [] => Some None
  | i :: rest =>
      sym ← level_syms !! i;
      match keysym_to_char sym with
      | Some ch =>
          if truthy ch && negb (startswith ch DEAD_PREFIX)
             && ((len ch =? 1)%nat && (isalnum ch || str_in ch LABEL_SYMBOLS))
          then Some (Some ch)
          else label_scan level_syms rest
      | None => label_scan level_syms rest
      end
  end.

Definition prefer_key_label (level_syms : list string) : option string :=
  r ← label_scan level_syms [0; 1; 2; 3]%nat;
  match r with
  | Some ch => Some ch
  | None => s0 ← level_syms !! 0%nat; Some (or_else (keysym_to_char s0) s0)
  end.

(** The loop body of [find_char_positions] for one [(lvl, sym)] of the row of [code]. *)
Definition index_level (code : Z) (syms : list string)
    (positions : gmap string (list occurrence)) (ls : nat * string)
  : gmap string (list occurrence) :=
  let '(lvl, sym) := ls in
  if decide (sym = "NoSymbol") then positions
  else match keysym_to_char sym with
       | None => positions
       | Some ch =>
           if negb (truthy ch) then positions
           else if startswith ch DEAD_PREFIX then positions
           else <[ch := default [] (positions !! ch) ++ [(code, lvl, sym, syms)]]> positions
       end.

Definition find_char_positions (keymap : list (Z * list string))
  : gmap string (list occurrence) :=
  foldl (λ positions '(code, syms),
           foldl (index_level code syms) positions (enumerate syms))
        ∅ keymap.

Definition lvl_to_combo (lvl : nat) : string :=
  default "" (({[ 0%nat := ""; 1%nat := "Shift+"; 2%nat := "AltGr+";
                  3%nat := "Shift+AltGr+" ]} : gmap nat string) !! lvl).

(** The row of a character that was found, from the entry chosen for it. *)
Definition found_row (want : string) (t : occurrence) : option (list string) :=
  let '(code, lvl, sym, full_syms) := t in
  let combo := lvl_to_combo lvl in
  key_label ← prefer_key_label full_syms;
  let example := combo +:+ "Tecla(" +:+ key_label +:+ ")" in
  Some [want; key_label; if truthy combo then drop_last combo else "—"; sym; example].

(** The row of a character that was not found, written under [--all]. *)
Definition missing_row (want : string) : list string :=
  [want; "—"; "—"; "—"; "No hallado en este layout"].

(** One turn of the loop of [main] over the wanted characters. *)
Definition main_step (positions : gmap string (list occurrence)) (show_missing : bool)
    (rows : list (list string)) (want : string) : option (list (list string)) :=
  match positions !! want with
  | None | Some [] =>
      if show_missing then Some (rows ++ [missing_row want]) else Some rows
  | Some found =>
      let found_sorted := sort_by_lvl found in
      t ← head found_sorted;
      r ← found_row want t;
      Some (rows ++ [r])
  end.

(** The rows [main] hands to [out_table]: [show_missing] is whether [--all]
    was given, [wanted] is [WANTED_CHARS] in the program. *)
Definition rows_of (positions : gmap string (list occurrence)) (show_missing : bool)
    (wanted : list string) : option (list (list string)) :=
  foldl (λ rows want, rows ≫= λ rows, main_step positions show_missing rows want)
        (Some []) wanted.

Definition main_rows (show_missing : bool) (keymap : list (Z * list string))
  : option (list (list string)) :=
  rows_of (find_char_positions keymap) show_missing WANTED_CHARS.

End resolver.

End KeymapProgrammingKeys.

(** ** keyboard_combo_inspector.py *)

Module KeyboardComboInspector.

(** [chr(c)] for [c < 128], [range(a, b)], and [str(d)] for a digit [d]. *)
Definition chr (c : nat) : string := String (ascii_of_nat c) EmptyString.
Definition range (a b : nat) : list nat := seq a (b - a).
Definition str_of_digit (d : nat) : string := chr (48 + d).

Definition EXTRA_CHAR_TO_QMK : gmap string string := pydict [
  ("ñ", "KC_SCLN"); ("Ñ", "S(KC_SCLN)");
  ("¡", "S(KC_1)"); ("¿", "RALT(KC_SLASH)")
].

Record KeyEventInfo : Type := {
  source : string;
  key : string;
  char : string;
  ctrl : bool;
  shift : bool;
  alt_l : bool;
  alt_r : bool;
  meta : bool;
  super : bool;
  comment : string
}.

Definition altgr (self : KeyEventInfo) : bool := alt_r self.

(** [self.tk_mods]: a dict whose six keys are set when the window is built and
    never change. *)
Record TkMods : Type := {
  tk_Shift : bool;
  tk_Control : bool;
  tk_Alt_L : bool;
  tk_Alt_R : bool;
  tk_Meta : bool;
  tk_Super : bool
}.

Definition tk_mods_init : TkMods :=
  {| tk_Shift := false; tk_Control := false; tk_Alt_L := false;
     tk_Alt_R := false; tk_Meta := false; tk_Super := false |}.

(** [self.ev_mods], likewise. *)
Record EvMods : Type := {
  ev_Shift : bool;
  ev_Ctrl : bool;
  ev_Alt_L : bool;
  ev_Alt_R : bool;
  ev_Meta : bool;
  ev_Super : bool
}.

Definition ev_mods_init : EvMods :=
  {| ev_Shift := false; ev_Ctrl := false; ev_Alt_L := false;
     ev_Alt_R := false; ev_Meta := false; ev_Super := false |}.

(** What the handlers read of a [tk.Event]. *)
Record TkEvent : Type := {
  keysym : string;
  event_char : string;
  keycode : Z
}.

Definition on_keypress_tk (tk_mods : TkMods) (event : TkEvent) : TkMods * KeyEventInfo :=
  let ks := keysym event in
  let ch := if truthy (event_char event) then event_char event else "" in
  let tk_mods :=
    if bool_decide (ks ∈ ["Shift_L"; "Shift_R"]) then
      {| tk_Shift := true; tk_Control := tk_Control tk_mods; tk_Alt_L := tk_Alt_L tk_mods;
         tk_Alt_R := tk_Alt_R tk_mods; tk_Meta := tk_Meta tk_mods; tk_Super := tk_Super tk_mods |}
    else if bool_decide (ks = "Control_L") || bool_decide (ks = "Control_R") then
      tk_mods
    else if bool_decide (ks = "Alt_L") then
      {| tk_Shift := tk_Shift tk_mods; tk_Control := tk_Control tk_mods; tk_Alt_L := true;
         tk_Alt_R := tk_Alt_R tk_mods; tk_Meta := tk_Meta tk_mods; tk_Super := tk_Super tk_mods |}
    else if bool_decide (ks = "Alt_R") || bool_decide (ks = "ISO_Level3_Shift")
            || bool_decide (ks = "Mode_switch") then
      {| tk_Shift := tk_Shift tk_mods; tk_Control := tk_Control tk_mods;
         tk_Alt_L := tk_Alt_L tk_mods;
         tk_Alt_R := true; tk_Meta := tk_Meta tk_mods; tk_Super := tk_Super tk_mods |}
    else if bool_decide (ks ∈ ["Meta_L"; "Meta_R"]) then
      {| tk_Shift := tk_Shift tk_mods; tk_Control := tk_Control tk_mods;
         tk_Alt_L := tk_Alt_L tk_mods;
         tk_Alt_R := tk_Alt_R tk_mods; tk_Meta := true; tk_Super := tk_Super tk_mods |}
    else if bool_decide (ks ∈ ["Super_L"; "Super_R"]) then
      {| tk_Shift := tk_Shift tk_mods; tk_Control := tk_Control tk_mods;
         tk_Alt_L := tk_Alt_L tk_mods;
         tk_Alt_R := tk_Alt_R tk_mods; tk_Meta := tk_Meta tk_mods; tk_Super := true |}
    else tk_mods in
  let info :=
    {| source := "XKB";
       key := ks;
       char := ch;
       ctrl := false;
       shift := tk_Shift tk_mods;
       alt_l := tk_Alt_L tk_mods;
       alt_r := tk_Alt_R tk_mods;
       meta := tk_Meta tk_mods;
       super := tk_Super tk_mods;
       comment := "Tk keysym=" +:+ ks +:+ ", keycode=" +:+ pretty (keycode event) |} in
  (tk_mods, info).

Definition on_keyrelease_tk (tk_mods : TkMods) (event : TkEvent) : TkMods :=
  let ks := keysym event in
  if bool_decide (ks ∈ ["Shift_L"; "Shift_R"]) then
    {| tk_Shift := false; tk_Control := tk_Control tk_mods; tk_Alt_L := tk_Alt_L tk_mods;
       tk_Alt_R := tk_Alt_R tk_mods; tk_Meta := tk_Meta tk_mods; tk_Super := tk_Super tk_mods |}
  else if bool_decide (ks = "Alt_L") then
    {| tk_Shift := tk_Shift tk_mods; tk_Control := tk_Control tk_mods; tk_Alt_L := false;
       tk_Alt_R := tk_Alt_R tk_mods; tk_Meta := tk_Meta tk_mods; tk_Super := tk_Super tk_mods |}
  else if bool_decide (ks = "Alt_R") || bool_decide (ks = "ISO_Level3_Shift")
          || bool_decide (ks = "Mode_switch") then
    {| tk_Shift := tk_Shift tk_mods; tk_Control := tk_Control tk_mods;
       tk_Alt_L := tk_Alt_L tk_mods;
       tk_Alt_R := false; tk_Meta := tk_Meta tk_mods; tk_Super := tk_Super tk_mods |}
  else if bool_decide (ks ∈ ["Meta_L"; "Meta_R"]) then
    {| tk_Shift := tk_Shift tk_mods; tk_Control := tk_Control tk_mods;
       tk_Alt_L := tk_Alt_L tk_mods;
       tk_Alt_R := tk_Alt_R tk_mods; tk_Meta := false; tk_Super := tk_Super tk_mods |}
  else if bool_decide (ks ∈ ["Super_L"; "Super_R"]) then
    {| tk_Shift := tk_Shift tk_mods; tk_Control := tk_Control tk_mods;
       tk_Alt_L := tk_Alt_L tk_mods;
       tk_Alt_R := tk_Alt_R tk_mods; tk_Meta := tk_Meta tk_mods; tk_Super := false |}
  else tk_mods.

(** [KeyEvent.key_up], [key_down] and [key_hold] of the evdev binding. *)
Definition key_up : Z := 0.
Definition key_down : Z := 1.
Definition key_hold : Z := 2.

(** What the loop reads of an [EV_KEY] event once categorized: the scancode,
    the name it has in [ecodes.KEY] (the scancode in decimal when it has
    none), and the key state. *)
Record EvKey : Type := {
  scancode : Z;
  keyname : string;
  keystate : Z
}.

(** An event of the device stream. *)
Inductive InputEvent : Type :=
| EV_KEY (data : EvKey)
| EV_OTHER.

(** The body of [_evdev_loop] for an [EV_KEY] event: the flags afterwards and
    what is put on the queue, if anything. *)
Definition evdev_key (ev_mods : EvMods) (data : EvKey) : EvMods * option KeyEventInfo :=
  let keycode := scancode data in
  let keyname := keyname data in
  let pressed := bool_decide (keystate data = key_down) in
  let released := bool_decide (keystate data = key_up) in
  let ev_mods :=
    if bool_decide (keyname ∈ ["KEY_LEFTSHIFT"; "KEY_RIGHTSHIFT"]) then
      {| ev_Shift := pressed || (negb released && ev_Shift ev_mods);
         ev_Ctrl := ev_Ctrl ev_mods; ev_Alt_L := ev_Alt_L ev_mods;
         ev_Alt_R := ev_Alt_R ev_mods; ev_Meta := ev_Meta ev_mods;
         ev_Super := ev_Super ev_mods |}
    else if bool_decide (keyname ∈ ["KEY_LEFTALT"]) then
      {| ev_Shift := ev_Shift ev_mods; ev_Ctrl := ev_Ctrl ev_mods;
         ev_Alt_L := pressed || (negb released && ev_Alt_L ev_mods);
         ev_Alt_R := ev_Alt_R ev_mods; ev_Meta := ev_Meta ev_mods;
         ev_Super := ev_Super ev_mods |}
    else if bool_decide (keyname ∈ ["KEY_RIGHTALT"]) then
      {| ev_Shift := ev_Shift ev_mods; ev_Ctrl := ev_Ctrl ev_mods;
         ev_Alt_L := ev_Alt_L ev_mods;
         ev_Alt_R := pressed || (negb released && ev_Alt_R ev_mods);
         ev_Meta := ev_Meta ev_mods; ev_Super := ev_Super ev_mods |}
    else if bool_decide (keyname ∈ ["KEY_LEFTCTRL"; "KEY_RIGHTCTRL"]) then
      {| ev_Shift := ev_Shift ev_mods;
         ev_Ctrl := pressed || (negb released && ev_Ctrl ev_mods);
         ev_Alt_L := ev_Alt_L ev_mods; ev_Alt_R := ev_Alt_R ev_mods;
         ev_Meta := ev_Meta ev_mods; ev_Super := ev_Super ev_mods |}
    else if bool_decide (keyname ∈ ["KEY_LEFTMETA"; "KEY_RIGHTMETA"]) then
      {| ev_Shift := ev_Shift ev_mods; ev_Ctrl := ev_Ctrl ev_mods;
         ev_Alt_L := ev_Alt_L ev_mods; ev_Alt_R := ev_Alt_R ev_mods;
         ev_Meta := ev_Meta ev_mods;
         ev_Super := pressed || (negb released && ev_Super ev_mods) |}
    else ev_mods in
  let char := "" in
  if pressed && negb (startswith keyname "KEY_LEFT" || startswith keyname "KEY_RIGHT") then
    let info :=
      {| source := "evdev";
         key := keyname;
         char := char;
         ctrl := ev_Ctrl ev_mods;
         shift := ev_Shift ev_mods;
         alt_l := ev_Alt_L ev_mods;
         alt_r := ev_Alt_R ev_mods;
         meta := false;
         super := ev_Super ev_mods;
         comment := "scancode=" +:+ pretty keycode |} in
    (ev_mods, Some info)
  else (ev_mods, None).

(** [_evdev_loop] over the events read until the stop flag is seen: the flags
    at the end and the queue of events put, oldest first. *)
Definition evdev_loop (ev_mods : EvMods) (events : list InputEvent)
  : EvMods * list KeyEventInfo :=
  foldl (λ '(ev_mods, queue) event,
           match event with
           | EV_KEY data =>
               let '(ev_mods, info) := evdev_key ev_mods data in
               (ev_mods, queue ++ option_list info)
           | EV_OTHER => (ev_mods, queue)
           end)
        (ev_mods, []) events.

Section suggestion.
Context `{Unicode}.

Definition BASE_KEYSYM_TO_QMK : gmap string string := pydict (
  ((λ c, (chr c, "KC_" +:+ upper (chr c))) <$> range 97 (122 + 1)) ++
  ((λ c, (upper (chr c), "KC_" +:+ chr c)) <$> range 65 (90 + 1)) ++
  ((λ d, (str_of_digit d, "KC_" +:+ str_of_digit d)) <$> range 0 10) ++
  [("-", "KC_MINS"); ("=", "KC_EQL");
   ("[", "KC_LBRC"); ("]", "KC_RBRC");
   ("\", "KC_BSLS");
   (";", "KC_SCLN"); ("'", "KC_QUOT");
   (",", "KC_COMM"); (".", "KC_DOT"); ("/", "KC_SLSH");
   ("`", "KC_GRV"); (" ", "KC_SPC")]).

(** The key code [qmk_from_char_and_mods] finds for the character, before the
    marker stands in for a missing one. *)
Definition lookup_kc (base_char : option string) : option string :=
  match base_char with
  | Some base_char =>
      if truthy base_char then
        let kc := BASE_KEYSYM_TO_QMK !! base_char in
        let kc := if falsy kc then EXTRA_CHAR_TO_QMK !! base_char else kc in
        if falsy kc && (len base_char =? 1)%nat && isalpha base_char
        then BASE_KEYSYM_TO_QMK !! lower base_char
        else kc
      else None
  | None => None
  end.

Definition qmk_from_char_and_mods (base_char : option string) (shift ralt : bool) : string :=
  let kc := lookup_kc base_char in
  let kc := if falsy kc then "<KC_BASE_DESCONOCIDA>" else default "" kc in
  if shift && ralt then "S(RALT(" +:+ kc +:+ "))"
  else if ralt then "RALT(" +:+ kc +:+ ")"
  else if shift then "S(" +:+ kc +:+ ")"
  else kc.


(** The suggestion [_update_evdev] shows for an event taken from the queue. *)
Definition update_evdev_qmk (info : KeyEventInfo) : string :=
  qmk_from_char_and_mods (if truthy (char info) then Some (char info) else None)
                         (shift info) (altgr info).

End suggestion.

End KeyboardComboInspector.

(** ** The programs *)

(** How a run of one of the two static resolvers ends: [sys.exit(status)],
    the table handed to the printer, or an exception. *)
Inductive outcome : Type :=
| Exit (status : Z)
| Rendered (rows : list (list string))
| Raised.

Module KbmapQmkHelperProgram.

(** [main]: [DISPLAY] is [os.environ.get("DISPLAY")], [pke] the listing of
    [xmodmap -pke] as the pattern reads it. *)
Definition main `{Unicode} (DISPLAY : option string) (pke : list pke_line) : outcome :=
  if falsy DISPLAY then Exit 1
  else
    let keymap := KbmapQmkHelper.parse_xmodmap_pke pke in
    match keymap with
    | [] => Exit 1
    | _ =>
        match KbmapQmkHelper.main_rows keymap with
        | None => Raised
        | Some [] => Exit 2
        | Some rows => Rendered rows
        end
    end.

End KbmapQmkHelperProgram.

Module KeymapProgrammingKeysProgram.

(** [main]: [argv] is [sys.argv], of which the rows only depend through
    [--all]. *)
Definition main `{Unicode} (DISPLAY : option string) (argv : list string)
    (pke : list pke_line) : outcome :=
  let show_missing := bool_decide ("--all" ∈ argv) in
  if falsy DISPLAY then Exit 1
  else
    let keymap := KeymapProgrammingKeys.parse_pke pke in
    match keymap with
    | [] => Exit 1
    | _ =>
        match KeymapProgrammingKeys.main_rows show_missing keymap with
        | None => Raised
        | Some [] => Exit 2
        | Some rows => Rendered rows
        end
    end.

End KeymapProgrammingKeysProgram.

(** ** The label of a key, said another way *)

(** The character a symbol gives to a label: what [keysym_to_char] returns
    when it is neither nothing nor a dead name. *)
Definition printable (sym : string) : option string :=
  match KbmapQmkHelper.keysym_to_char sym with
  | Some ch => if truthy ch && negb (startswith ch "dead_") then Some ch else None
  | None => None
  end.

Fixpoint first_printable (level_syms : list string) : option string :=
  match level_syms with
  | [] => None
  | sym :: rest =>
      match printable sym with
      | Some ch => Some ch
      | None => first_printable rest
      end
  end.

(** ** Reading a marker back *)

(** What a reader of the output does to find the symbol of an unknown base
    key: look for the opening of the marker, and keep what follows up to the
    last [>] of the expression. *)
Definition MARKER_OPENING : string := "<KC_BASE_DESCONOCIDA:keysym=".

Fixpoint strip_prefix (p s : string) : option string :=
  match p, s with
  | EmptyString, _ => Some s
  | String a p', String b s' => if Ascii.eqb a b then strip_prefix p' s' else None
  | String _ _, EmptyString => None
  end.

Fixpoint after_opening (s : string) : option string :=
  match strip_prefix MARKER_OPENING s with
  | Some r => Some r
  | None =>
      match s with
      | EmptyString => None
      | String _ r => after_opening r
      end
  end.

Fixpoint until_last_gt (s : string) : option string :=
  match s with
  | EmptyString => None
  | String a r =>
      match until_last_gt r with
      | Some t => Some (String a t)
      | None => if Ascii.eqb a ">" then Some EmptyString else None
      end
  end.

Definition marker_symbol (qmk : string) : option string :=
  after_opening qmk ≫= until_last_gt.

(** ** The keys the live tracker takes for modifiers *)

(** The key symbols [on_keypress_tk] and [on_keyrelease_tk] test for. *)
Definition TK_MODIFIER_KEYSYMS : list string :=
  ["Shift_L"; "Shift_R"; "Control_L"; "Control_R"; "Alt_L";
   "Alt_R"; "ISO_Level3_Shift"; "Mode_switch";
   "Meta_L"; "Meta_R"; "Super_L"; "Super_R"].


(** The press of the key of a scancode, under the name [ecodes.KEY] gives it. *)
Definition key_press (code : Z) (name : string) : KeyboardComboInspector.EvKey :=
  {| KeyboardComboInspector.scancode := code;
     KeyboardComboInspector.keyname := name;
     KeyboardComboInspector.keystate := KeyboardComboInspector.key_down |}.

(** The key names [_evdev_loop] tests for when it updates the flags. *)
Definition EV_MODIFIER_KEYNAMES : list string :=
  ["KEY_LEFTSHIFT"; "KEY_RIGHTSHIFT"; "KEY_LEFTALT"; "KEY_RIGHTALT";
   "KEY_LEFTCTRL"; "KEY_RIGHTCTRL"; "KEY_LEFTMETA"; "KEY_RIGHTMETA"].

(** ** What the index holds *)

(** [sym] may be indexed under [ch]: it is not the sentinel, [k2c] resolves it
    to [ch], and [ch] is neither empty nor a dead name. *)
Definition indexable (k2c : string → option string) (ch sym : string) : Prop :=
  sym ≠ "NoSymbol" ∧ k2c sym = Some ch ∧ truthy ch = true ∧ startswith ch "dead_" = false.

(** An entry names a key of the keymap, with its whole row, and the level at
    which the row holds the symbol. *)
Definition occ_ok (k2c : string → option string) (keymap : list (Z * list string))
    (ch : string) (t : occurrence) : Prop :=
  (t.1.1.1, occ_row t) ∈ keymap ∧ occ_row t !! occ_lvl t = Some (occ_sym t) ∧
  indexable k2c ch (occ_sym t).

Definition index_ok (k2c : string → option string) (keymap : list (Z * list string))
    (pos : gmap string (list occurrence)) : Prop :=
  ∀ ch found, pos !! ch = Some found → found ≠ [] ∧ Forall (occ_ok k2c keymap ch) found.

(** [t] is the entry of least level in [found], the earliest one among those
    of that level. *)
Definition first_lowest (t : occurrence) (found : list occurrence) : Prop :=
  ∃ pre post,
    found = pre ++ t :: post ∧
    Forall (λ u, occ_lvl t < occ_lvl u) pre ∧
    Forall (λ u, occ_lvl t ≤ occ_lvl u) post.

(** ** The index, said another way *)

(** Every entry a keymap could give, key after key in the order of the keymap
    and level after level within a key. *)
Definition all_entries (keymap : list (Z * list string)) : list occurrence :=
  '(code, syms) ← keymap; (λ '(lvl, sym), (code, lvl, sym, syms)) <$> enumerate syms.

#[global] Instance indexable_dec k2c ch sym : Decision (indexable k2c ch sym).
Proof. unfold indexable. apply _. Defined.

(** The entries of a character: those whose symbol may be indexed under it. *)
Definition entries_of (k2c : string → option string) (keymap : list (Z * list string))
    (ch : string) : list occurrence :=
  filter (λ t, indexable k2c ch (occ_sym t)) (all_entries keymap).

(** * Properties *)

(** ** Strings *)

Lemma str_app_nil (s : string) : "" +:+ s = s.
Proof. reflexivity. Qed.

Lemma str_app_cons (a : ascii) (s t : string) : String a s +:+ t = String a (s +:+ t).
Proof. reflexivity. Qed.

Lemma str_app_assoc (s1 s2 s3 : string) : (s1 +:+ s2) +:+ s3 = s1 +:+ (s2 +:+ s3).
Proof.
  induction s1 as [|a s1 IH]; [done |].
  by rewrite !str_app_cons, IH.
Qed.

Lemma prefix_spec (p s : string) : String.prefix p s = true ↔ ∃ r, s = p +:+ r.
Proof.
  revert s. induction p as [|a p IH]; intros s.
  - split; [by exists s | by destruct s].
  - destruct s as [|b s]; simpl.
    + split; [done | by intros [r Hr]].
    + destruct (Ascii.ascii_dec a b) as [->|Hne].
      * rewrite IH. split; intros [r Hr]; exists r; rewrite ?str_app_cons in *; congruence.
      * split; [done | intros [r Hr]; rewrite str_app_cons in Hr; congruence].
Qed.

(** ** The two symbol tables *)

Section tables.
Context `{Unicode}.

(** The table of [kbmap_qmk_helper.py] is the one of
    [keymap_programming_keys.py] with three dead symbols added, so the two
    agree on every symbol that is not a dead one. *)
Lemma KEYSYM_TO_CHAR_not_dead (sym : string) :
  startswith sym "dead_" = false →
  KbmapQmkHelper.KEYSYM_TO_CHAR !! sym = KeymapProgrammingKeys.KEYSYM_TO_CHAR !! sym.
Proof.
  intros Hd.
  unfold KbmapQmkHelper.KEYSYM_TO_CHAR, KeymapProgrammingKeys.KEYSYM_TO_CHAR, pydict.
  cbn [foldl].
  rewrite !lookup_insert_ne by (intros <-; discriminate Hd).
  rewrite (insert_insert_ne _ "space" "Ntilde") by done.
  by rewrite (insert_insert_ne _ "space" "ntilde") by done.
Qed.

(** C10. The symbol-to-character resolvers of the two static resolvers give
    the same answer on every symbol: the three entries only one table has are
    dead symbols, which both functions return before they read the table. *)
Theorem keysym_to_char_same (sym : string) :
  KbmapQmkHelper.keysym_to_char sym = KeymapProgrammingKeys.keysym_to_char sym.
Proof.
  unfold KbmapQmkHelper.keysym_to_char, KeymapProgrammingKeys.keysym_to_char,
    KbmapQmkHelper.DEAD_PREFIX, KeymapProgrammingKeys.DEAD_PREFIX.
  destruct (startswith sym "dead_") eqn:Hd; [done |].
  rewrite (KEYSYM_TO_CHAR_not_dead sym Hd).
  destruct (KeymapProgrammingKeys.KEYSYM_TO_CHAR !! sym); [done |].
  by destruct (len sym =? 1)%nat.
Qed.

End tables.

(** ** Building the layout model *)

Lemma pad_loop_spec (n : nat) (syms : list string) :
  pad_loop n syms = syms ++ replicate n "NoSymbol".
Proof.
  revert syms. induction n as [|n IH]; intros syms; simpl.
  - by rewrite app_nil_r.
  - by rewrite IH, <-app_assoc.
Qed.

Lemma pad4_length (syms : list string) : length (take 4 (pad4 syms)) = 4.
Proof.
  unfold pad4. rewrite pad_loop_spec, length_take, length_app, length_replicate. lia.
Qed.

Lemma pad4_lookup (syms : list string) (i : nat) :
  i < 4 → take 4 (pad4 syms) !! i = Some (default "NoSymbol" (syms !! i)).
Proof.
  intros Hi. unfold pad4. rewrite pad_loop_spec, lookup_take_lt by done.
  destruct (syms !! i) as [x|] eqn:Hx; simpl.
  - by rewrite lookup_app_l by (by eapply lookup_lt_Some).
  - apply lookup_ge_None in Hx.
    rewrite lookup_app_r by done. apply lookup_replicate_2. lia.
Qed.

Lemma elem_of_dict_set {V} (d : list (Z * V)) (k k' : Z) (v v' : V) :
  (k, v) ∈ dict_set d k' v' → (k, v) = (k', v') ∨ (k, v) ∈ d.
Proof.
  induction d as [|[k0 v0] d IH]; simpl.
  - intros ->%list_elem_of_singleton. by left.
  - case_decide as Hk.
    + intros [->|Hin]%elem_of_cons; [by left | right; by right].
    + intros [->|Hin]%elem_of_cons; [right; by left |].
      destruct (IH Hin) as [?|?]; [by left | right; by right].
Qed.

(** A stored row comes from a matched line: its tokens, emptied of empty
    strings, padded to four and cut at four. *)
Lemma parse_xmodmap_pke_rows (pke : list pke_line) (code : Z) (row : list string) :
  (code, row) ∈ KbmapQmkHelper.parse_xmodmap_pke pke →
  ∃ tokens, Keycode code tokens ∈ pke ∧
            row = take 4 (pad4 (filter (λ t, truthy t = true) tokens)).
Proof.
  unfold KbmapQmkHelper.parse_xmodmap_pke.
  induction pke as [|line pke IH] using rev_ind; simpl.
  - by intros ?%elem_of_nil.
  - rewrite foldl_snoc. destruct line as [|code' tokens].
    + intros (tokens & Hin & ->)%IH. exists tokens. split; [|done].
      apply elem_of_app. by left.
    + intros [Heq|Hin]%elem_of_dict_set.
      * injection Heq as -> ->. exists tokens. split; [|done].
        apply elem_of_app. right. by left.
      * destruct (IH Hin) as (tokens' & Hin' & ->). exists tokens'. split; [|done].
        apply elem_of_app. by left.
Qed.

Lemma parse_pke_same (pke : list pke_line) :
  KeymapProgrammingKeys.parse_pke pke = KbmapQmkHelper.parse_xmodmap_pke pke.
Proof. reflexivity. Qed.

(** C6. Whatever the number of tokens on a line of the raw mapping, every row
    stored by either parser has exactly four entries: slot [i] holds the
    [i]-th token of the line it comes from, or the sentinel [NoSymbol] when
    the line has no such token. *)
Theorem parsed_rows_have_four_levels (pke : list pke_line) (code : Z) (row : list string) :
  (code, row) ∈ KbmapQmkHelper.parse_xmodmap_pke pke ∨
  (code, row) ∈ KeymapProgrammingKeys.parse_pke pke →
  length row = 4 ∧
  ∃ tokens, Keycode code tokens ∈ pke ∧
    ∀ i, i < 4 →
      row !! i = Some (default "NoSymbol" (filter (λ t, truthy t = true) tokens !! i)).
Proof.
  intros Hin.
  assert ((code, row) ∈ KbmapQmkHelper.parse_xmodmap_pke pke) as Hin'
    by (destruct Hin as [?|?]; [done | by rewrite <-parse_pke_same]).
  destruct (parse_xmodmap_pke_rows _ _ _ Hin') as (tokens & Hl & ->).
  split; [apply pad4_length |].
  exists tokens. split; [done |]. intros i Hi. by apply pad4_lookup.
Qed.

(** ** The reverse index *)

Section index.

(** Both resolvers build the index the same way: a step leaves it as it is,
    or appends one entry to the list of a character that the symbol resolves
    to and that is not a dead name. *)
Variable k2c : string → option string.
Variable step : Z → list string → gmap string (list occurrence) → nat * string →
                gmap string (list occurrence).

Hypothesis step_cases : ∀ code syms pos lvl sym,
  step code syms pos (lvl, sym) = pos ∨
  ∃ ch, indexable k2c ch sym ∧
        step code syms pos (lvl, sym) =
        <[ch := default [] (pos !! ch) ++ [(code, lvl, sym, syms)]]> pos.

Lemma index_ok_step keymap code syms pos lvl sym :
  index_ok k2c keymap pos → (code, syms) ∈ keymap → syms !! lvl = Some sym →
  index_ok k2c keymap (step code syms pos (lvl, sym)).
Proof.
  intros Hok Hin Hsym.
  destruct (step_cases code syms pos lvl sym) as [->|(ch & Hch & ->)]; [done |].
  intros ch' found. destruct (decide (ch = ch')) as [<-|Hne].
  - rewrite lookup_insert_eq. intros [= <-]. split.
    + by intros [? ?]%app_eq_nil.
    + apply Forall_app. split.
      * destruct (pos !! ch) as [old|] eqn:Hold; simpl; [|apply Forall_nil_2].
        by apply (Hok ch).
      * apply Forall_singleton. by split.
  - rewrite lookup_insert_ne by done. apply Hok.
Qed.

Lemma index_ok_row keymap code syms (l : list (nat * string)) pos :
  index_ok k2c keymap pos → (code, syms) ∈ keymap →
  (∀ lvl sym, (lvl, sym) ∈ l → syms !! lvl = Some sym) →
  index_ok k2c keymap (foldl (step code syms) pos l).
Proof.
  revert pos. induction l as [|[lvl sym] l IH]; intros pos Hok Hin Hl; simpl; [done |].
  apply IH; [|done|].
  - apply index_ok_step; [done..|]. apply Hl. by left.
  - intros lvl' sym' Hin'. apply Hl. by right.
Qed.

Lemma enumerate_lookup (syms : list string) (lvl : nat) (sym : string) :
  (lvl, sym) ∈ enumerate syms → syms !! lvl = Some sym.
Proof.
  unfold enumerate. intros (i & y & [= -> ->] & Hy)%elem_of_lookup_imap. done.
Qed.

Lemma index_ok_fold keymap (rest : list (Z * list string)) pos :
  index_ok k2c keymap pos → rest ⊆ keymap →
  index_ok k2c keymap
    (foldl (λ pos '(code, syms), foldl (step code syms) pos (enumerate syms)) pos rest).
Proof.
  revert pos. induction rest as [|[code syms] rest IH]; intros pos Hok Hsub; simpl; [done |].
  apply IH.
  - apply index_ok_row; [done | apply Hsub; by left | apply enumerate_lookup].
  - intros x Hx. apply Hsub. by right.
Qed.

Lemma index_ok_build keymap :
  index_ok k2c keymap
    (foldl (λ pos '(code, syms), foldl (step code syms) pos (enumerate syms)) ∅ keymap).
Proof. apply index_ok_fold; [|done]. intros ch found. by rewrite lookup_empty. Qed.

End index.

Lemma build_positions_ok (keymap : list (Z * list string)) :
  index_ok KbmapQmkHelper.keysym_to_char keymap (KbmapQmkHelper.build_positions keymap).
Proof.
  apply index_ok_build. intros code syms pos lvl sym.
  unfold KbmapQmkHelper.index_level, indexable, KbmapQmkHelper.DEAD_PREFIX.
  case_decide as Hns; [by left |].
  destruct (KbmapQmkHelper.keysym_to_char sym) as [ch|]; [|by left].
  destruct (truthy ch) eqn:Ht; simpl; [|by left].
  destruct (startswith ch "dead_") eqn:Hd; [by left |].
  right. by exists ch.
Qed.

Lemma find_char_positions_ok `{Unicode} (keymap : list (Z * list string)) :
  index_ok KeymapProgrammingKeys.keysym_to_char keymap
           (KeymapProgrammingKeys.find_char_positions keymap).
Proof.
  apply index_ok_build. intros code syms pos lvl sym.
  unfold KeymapProgrammingKeys.index_level, indexable, KeymapProgrammingKeys.DEAD_PREFIX.
  case_decide as Hns; [by left |].
  destruct (KeymapProgrammingKeys.keysym_to_char sym) as [ch|]; [|by left].
  destruct (truthy ch) eqn:Ht; simpl; [|by left].
  destruct (startswith ch "dead_") eqn:Hd; [by left |].
  right. by exists ch.
Qed.

(** A dead symbol resolves to its own name, so it is never indexed: no entry
    of the index of [kbmap_qmk_helper.py] holds a symbol that starts with
    [dead_], the three of its table included. *)
Lemma build_positions_no_dead (keymap : list (Z * list string)) (ch : string)
    (found : list occurrence) (t : occurrence) :
  KbmapQmkHelper.build_positions keymap !! ch = Some found → t ∈ found →
  startswith (occ_sym t) "dead_" = false.
Proof.
  intros Hf Ht. destruct (build_positions_ok keymap ch found Hf) as [_ Hall].
  rewrite Forall_forall in Hall.
  destruct (Hall t Ht) as (_ & _ & _ & Hk & _ & Hd).
  unfold KbmapQmkHelper.keysym_to_char, KbmapQmkHelper.DEAD_PREFIX in Hk.
  destruct (startswith (occ_sym t) "dead_") eqn:Hs; [|done].
  injection Hk as <-. congruence.
Qed.

(** ** Choosing an entry *)

Lemma insert_by_lvl_head (x t : occurrence) (l : list occurrence) :
  head l = Some t →
  head (insert_by_lvl x l) = Some (if (occ_lvl x <=? occ_lvl t)%nat then x else t).
Proof.
  destruct l as [|y r]; [done |]. intros [= ->]. simpl.
  by destruct (occ_lvl x <=? occ_lvl t)%nat.
Qed.

Lemma sort_by_lvl_head (found : list occurrence) :
  found ≠ [] → ∃ t, head (sort_by_lvl found) = Some t ∧ first_lowest t found.
Proof.
  induction found as [|x l IH]; [done |]. intros _.
  destruct l as [|y l'].
  - exists x. split; [done |]. exists [], []. by repeat split.
  - destruct IH as (t & Hhd & pre & post & Heq & Hpre & Hpost); [done |].
    change (sort_by_lvl (x :: y :: l')) with (insert_by_lvl x (sort_by_lvl (y :: l'))).
    rewrite (insert_by_lvl_head x t _ Hhd).
    destruct (occ_lvl x <=? occ_lvl t)%nat eqn:Hle.
    + apply Nat.leb_le in Hle. exists x. split; [done |].
      exists [], (y :: l'). split; [done |]. split; [by constructor |].
      rewrite Heq. apply Forall_app. split; [|constructor].
      * eapply Forall_impl; [exact Hpre |]. simpl. lia.
      * done.
      * eapply Forall_impl; [exact Hpost |]. simpl. lia.
    + apply Nat.leb_gt in Hle. exists t. split; [done |].
      exists (x :: pre), post. split; [by rewrite Heq |]. split; [|done].
      by constructor.
Qed.

(** The least level is reached by one entry only up to position: two entries
    that both come first among the lowest are the same entry. *)
Lemma first_lowest_unique (t t' : occurrence) (found : list occurrence) :
  first_lowest t found → first_lowest t' found → t = t'.
Proof.
  intros (pre & post & Heq & Hpre & Hpost) (pre' & post' & Heq' & Hpre' & Hpost').
  rewrite Heq in Heq'. clear Heq. revert pre' Heq' Hpre Hpre'.
  induction pre as [|a pre IH]; intros [|a' pre'] Heq' Hpre Hpre'; simpl in *.
  - congruence.
  - injection Heq' as E1 E2. subst. apply Forall_cons in Hpre' as [Ha _].
    rewrite Forall_forall in Hpost. specialize (Hpost t').
    assert (t' ∈ pre' ++ t' :: post') as Hin by (apply elem_of_app; right; by left).
    apply Hpost in Hin. lia.
  - injection Heq' as E1 E2. subst. apply Forall_cons in Hpre as [Ha _].
    rewrite Forall_forall in Hpost'. specialize (Hpost' t).
    assert (t ∈ pre ++ t :: post) as Hin by (apply elem_of_app; right; by left).
    apply Hpost' in Hin. lia.
  - injection Heq' as E1 Heq'. subst. apply Forall_cons in Hpre as [_ Hpre].
    apply Forall_cons in Hpre' as [_ Hpre']. by apply (IH pre').
Qed.

Section resolution.
Context `{Unicode}.

(** C4. For a character whose list of entries is not empty, both resolvers
    build the row from the entry of least level, and from the one discovered
    first among those of that level: [kbmap_qmk_helper.py] sorts the list in
    place and takes its head, [keymap_programming_keys.py] takes the head of a
    sorted copy. With entries at levels 0 and 2 this is the one at level 0. *)
Theorem lowest_level_entry_is_chosen (positions : gmap string (list occurrence))
    (c : string) (found : list occurrence) :
  positions !! c = Some found → found ≠ [] →
  ∃ t, first_lowest t found ∧
    (∀ rows,
       KbmapQmkHelper.main_step (positions, rows) c =
       '(combo_hum, keysym, qmk) ← KbmapQmkHelper.qmk_combo_for t;
       key_label ← KbmapQmkHelper.prefer_key_label (occ_row t);
       Some (<[c := sort_by_lvl found]> positions,
             rows ++ [[c; if truthy combo_hum then drop_last combo_hum else "—";
                       keysym; qmk; key_label]])) ∧
    (∀ show_missing rows,
       KeymapProgrammingKeys.main_step positions show_missing rows c =
       r ← KeymapProgrammingKeys.found_row c t; Some (rows ++ [r])).
Proof.
  intros Hpos Hne. destruct (sort_by_lvl_head found Hne) as (t & Hhd & Hlow).
  exists t. split; [done |].
  unfold KbmapQmkHelper.main_step, KeymapProgrammingKeys.main_step.
  rewrite Hpos. destruct found as [|x l]; [done |].
  rewrite Hhd. by split.
Qed.

(** ** The keycode expression *)

Lemma KH_label_scan_total (level_syms : list string) (idx : list nat) :
  Forall (λ i, i < length level_syms) idx →
  is_Some (KbmapQmkHelper.label_scan level_syms idx).
Proof.
  induction 1 as [|i idx Hi _ IH]; simpl; [by eexists |].
  destruct (lookup_lt_is_Some_2 _ _ Hi) as [sym ->]. simpl.
  destruct (KbmapQmkHelper.keysym_to_char sym) as [ch|]; [|done].
  by destruct (truthy ch && negb (startswith ch KbmapQmkHelper.DEAD_PREFIX)).
Qed.

Lemma KH_prefer_key_label_total (level_syms : list string) :
  length level_syms = 4 → is_Some (KbmapQmkHelper.prefer_key_label level_syms).
Proof.
  intros Hlen. unfold KbmapQmkHelper.prefer_key_label.
  destruct (KH_label_scan_total level_syms [0; 1; 2; 3]) as [r ->].
  { repeat constructor; lia. }
  simpl. destruct r as [ch|]; [by eexists |].
  destruct level_syms as [|s0 ?]; [done | by eexists].
Qed.

Lemma qmk_base_for_total (t : occurrence) :
  length (occ_row t) = 4 → is_Some (KbmapQmkHelper.qmk_base_for t).
Proof.
  destruct t as [[[code lvl] sym] level_syms]. unfold occ_row. simpl. intros Hlen.
  destruct (KH_prefer_key_label_total level_syms Hlen) as [label Hlabel].
  destruct level_syms as [|s0 ?]; [done |].
  unfold KbmapQmkHelper.qmk_base_for. simpl. rewrite Hlabel. simpl.
  destruct (KbmapQmkHelper.qmk_base_direct _) as [k|]; simpl; [|by eexists].
  destruct (truthy k); simpl; by eexists.
Qed.

(** C5. Every entry of the index built from a parsed mapping has a base
    keycode [X], and its expression is [X] at level 0, [S(X)] at level 1,
    [RALT(X)] at level 2 and [S(RALT(X))] at level 3; the entry has no other
    level, so there is no other shape. *)
Theorem expression_shape_by_level (pke : list pke_line) (c : string)
    (found : list occurrence) (t : occurrence) :
  KbmapQmkHelper.build_positions (KbmapQmkHelper.parse_xmodmap_pke pke) !! c = Some found →
  t ∈ found →
  ∃ X qmk,
    KbmapQmkHelper.qmk_base_for t = Some X ∧
    KbmapQmkHelper.qmk_combo_for t =
      Some (KbmapQmkHelper.level_to_combo (occ_lvl t), occ_sym t, qmk) ∧
    ((occ_lvl t = 0 ∧ qmk = X) ∨
     (occ_lvl t = 1 ∧ qmk = "S(" +:+ X +:+ ")") ∨
     (occ_lvl t = 2 ∧ qmk = "RALT(" +:+ X +:+ ")") ∨
     (occ_lvl t = 3 ∧ qmk = "S(RALT(" +:+ X +:+ "))")).
Proof.
  intros Hpos Ht.
  destruct (build_positions_ok _ c found Hpos) as [_ Hall].
  rewrite Forall_forall in Hall. destruct (Hall t Ht) as (Hkey & Hlvl & _).
  apply parse_xmodmap_pke_rows in Hkey as (tokens & _ & Hrow).
  assert (length (occ_row t) = 4) as Hlen by (rewrite Hrow; apply pad4_length).
  apply lookup_lt_Some in Hlvl. rewrite Hlen in Hlvl.
  destruct (qmk_base_for_total t Hlen) as [X HX].
  exists X, (KbmapQmkHelper.stack_mods (occ_lvl t) X). split; [done |].
  destruct t as [[[code lvl] sym] level_syms].
  unfold KbmapQmkHelper.qmk_combo_for. rewrite HX.
  unfold occ_lvl, occ_sym in *. simpl in *. split; [done |].
  destruct lvl as [|[|[|[|lvl]]]]; simpl; [tauto.. | lia].
Qed.

End resolution.

(** ** The marker of an unknown base key *)

Lemma strip_prefix_app (p r : string) : strip_prefix p (p +:+ r) = Some r.
Proof.
  induction p as [|a p IH]; [by destruct r |].
  rewrite str_app_cons. simpl. by rewrite Ascii.eqb_refl.
Qed.

Lemma after_opening_unfold (s : string) :
  after_opening s =
  match strip_prefix MARKER_OPENING s with
  | Some r => Some r
  | None => match s with EmptyString => None | String _ r => after_opening r end
  end.
Proof. by destruct s. Qed.

Lemma after_opening_here (r : string) : after_opening (MARKER_OPENING +:+ r) = Some r.
Proof. by rewrite after_opening_unfold, strip_prefix_app. Qed.

Lemma until_last_gt_app (base tail : string) :
  until_last_gt tail = None → until_last_gt (base +:+ ">" +:+ tail) = Some base.
Proof.
  intros Htail. induction base as [|a base IH].
  - rewrite str_app_nil, str_app_cons, str_app_nil. simpl. by rewrite Htail.
  - rewrite str_app_cons. simpl. by rewrite IH.
Qed.

(** The symbol is read back from the marker under each stack of modifiers. *)
Lemma marker_symbol_stack_mods `{Unicode} (lvl : nat) (base_keysym : string) :
  marker_symbol (KbmapQmkHelper.stack_mods lvl (KbmapQmkHelper.unknown_base base_keysym))
  = Some base_keysym.
Proof.
  unfold marker_symbol, KbmapQmkHelper.unknown_base.
  fold MARKER_OPENING.
  destruct lvl as [|[|[|lvl]]]; unfold KbmapQmkHelper.stack_mods.
  - rewrite after_opening_here. simpl.
    exact (until_last_gt_app base_keysym "" eq_refl).
  - rewrite !str_app_assoc.
    change ("S(" +:+ MARKER_OPENING +:+ base_keysym +:+ ">" +:+ ")")
      with (String "S" (String "(" (MARKER_OPENING +:+ base_keysym +:+ ">" +:+ ")"))).
    rewrite after_opening_unfold. simpl.
    exact (until_last_gt_app base_keysym ")" eq_refl).
  - rewrite !str_app_assoc.
    change ("RALT(" +:+ MARKER_OPENING +:+ base_keysym +:+ ">" +:+ ")")
      with (String "R" (String "A" (String "L" (String "T" (String "("
              (MARKER_OPENING +:+ base_keysym +:+ ">" +:+ ")")))))).
    rewrite after_opening_unfold. simpl.
    exact (until_last_gt_app base_keysym ")" eq_refl).
  - rewrite !str_app_assoc.
    change ("S(RALT(" +:+ MARKER_OPENING +:+ base_keysym +:+ ">" +:+ "))")
      with (String "S" (String "(" (String "R" (String "A" (String "L" (String "T"
              (String "(" (MARKER_OPENING +:+ base_keysym +:+ ">" +:+ "))")))))))).
    rewrite after_opening_unfold. simpl.
    exact (until_last_gt_app base_keysym "))" eq_refl).
Qed.

Lemma str_in_unfold (sub s : string) :
  str_in sub s =
  String.prefix sub s || match s with EmptyString => false | String _ r => str_in sub r end.
Proof. by destruct s. Qed.

Lemma str_in_app (sub pre post : string) : str_in sub (pre +:+ sub +:+ post) = true.
Proof.
  induction pre as [|a pre IH].
  - rewrite str_app_nil, str_in_unfold.
    apply orb_true_iff. left. apply prefix_spec. by exists post.
  - rewrite str_app_cons, str_in_unfold. simpl. rewrite IH. apply orb_true_r.
Qed.

Lemma str_app_nil_r (s : string) : s +:+ "" = s.
Proof. induction s as [|a s IH]; [done | by rewrite str_app_cons, IH]. Qed.

Lemma stack_mods_holds `{Unicode} (lvl : nat) (X : string) :
  str_in X (KbmapQmkHelper.stack_mods lvl X) = true.
Proof.
  destruct lvl as [|[|[|lvl]]]; unfold KbmapQmkHelper.stack_mods.
  - rewrite <-(str_app_nil_r X) at 2. apply (str_in_app X "" "").
  - apply str_in_app.
  - apply str_in_app.
  - apply str_in_app.
Qed.

Section unknown_base.
Context `{Unicode}.

(** C3, as the code has it. When the letter rule, the digit rule and the table
    fail on the base symbol of an entry, and the two rules fail on the label of
    its key, the expression of [qmk_combo_for] holds the marker
    [<KC_BASE_DESCONOCIDA:keysym=SYMBOL>] under the modifiers of the level, and
    the base symbol is read back from it. When no key code is found for a
    character, [qmk_from_char_and_mods] answers with the fixed marker
    [<KC_BASE_DESCONOCIDA>] under the modifiers, whatever the character. *)
Theorem unknown_base_marker (code : Z) (lvl : nat) (sym : string)
    (level_syms : list string) (s0 key_label : string)
    (base_char : option string) (shift ralt : bool) :
  level_syms !! 0 = Some s0 →
  falsy (KbmapQmkHelper.qmk_base_direct (if decide (s0 ≠ "NoSymbol") then s0 else sym)) = true →
  KbmapQmkHelper.prefer_key_label level_syms = Some key_label →
  ((len key_label =? 1)%nat && isalpha key_label) = false →
  ((len key_label =? 1)%nat && isdigit key_label) = false →
  falsy (KeyboardComboInspector.lookup_kc base_char) = true →
  (∃ qmk,
     KbmapQmkHelper.qmk_combo_for (code, lvl, sym, level_syms) =
       Some (KbmapQmkHelper.level_to_combo lvl, sym, qmk) ∧
     str_in (KbmapQmkHelper.unknown_base (if decide (s0 ≠ "NoSymbol") then s0 else sym)) qmk
       = true ∧
     marker_symbol qmk = Some (if decide (s0 ≠ "NoSymbol") then s0 else sym)) ∧
  KeyboardComboInspector.qmk_from_char_and_mods base_char shift ralt =
    (if shift && ralt then "S(RALT(<KC_BASE_DESCONOCIDA>))"
     else if ralt then "RALT(<KC_BASE_DESCONOCIDA>)"
     else if shift then "S(<KC_BASE_DESCONOCIDA>)"
     else "<KC_BASE_DESCONOCIDA>").
Proof.
  intros Hs0 Hdirect Hlabel Halpha Hdigit Hkc. split.
  - exists (KbmapQmkHelper.stack_mods lvl
              (KbmapQmkHelper.unknown_base (if decide (s0 ≠ "NoSymbol") then s0 else sym))).
    split; [|split].
    + unfold KbmapQmkHelper.qmk_combo_for, KbmapQmkHelper.qmk_base_for.
      rewrite Hs0. simpl. rewrite Hdirect, Hlabel. simpl.
      unfold KbmapQmkHelper.qmk_base_fallback. by rewrite Halpha, Hdigit.
    + apply stack_mods_holds.
    + apply marker_symbol_stack_mods.
  - unfold KeyboardComboInspector.qmk_from_char_and_mods. rewrite Hkc.
    by destruct shift, ralt.
Qed.

End unknown_base.

(** C3, as the claim has it, fails on the live side: no key code is found for
    [@] nor for [#], both get the same expression, and the character is not
    in it. *)
Lemma live_marker_has_no_symbol :
  falsy (@KeyboardComboInspector.lookup_kc Latin1 (Some "@")) = true ∧
  falsy (@KeyboardComboInspector.lookup_kc Latin1 (Some "#")) = true ∧
  @KeyboardComboInspector.qmk_from_char_and_mods Latin1 (Some "@") false false
    = "<KC_BASE_DESCONOCIDA>" ∧
  @KeyboardComboInspector.qmk_from_char_and_mods Latin1 (Some "#") false false
    = "<KC_BASE_DESCONOCIDA>" ∧
  str_in "@" (@KeyboardComboInspector.qmk_from_char_and_mods Latin1 (Some "@") false false)
    = false.
Proof. by vm_compute. Qed.

(** ** The live tracker *)

Import KeyboardComboInspector.

(** The tests on the name of a key all fail once the name is known to differ
    from each modifier. *)
Ltac no_modifier :=
  repeat match goal with
    | |- context [bool_decide (?x ∈ ?l)] =>
        rewrite (bool_decide_eq_false_2 (x ∈ l))
          by (let Hin := fresh in intros Hin; decompose_list_elem_of; done)
    | H : ?x ≠ ?y |- context [bool_decide (?x = ?y)] =>
        rewrite (bool_decide_eq_false_2 (x = y)) by done
    end;
  simpl.

Lemma on_keypress_tk_non_modifier (tk_mods : TkMods) (event : TkEvent) :
  keysym event ∉ TK_MODIFIER_KEYSYMS →
  on_keypress_tk tk_mods event =
    (tk_mods,
     {| source := "XKB"; key := keysym event;
        char := if truthy (event_char event) then event_char event else "";
        ctrl := false; shift := tk_Shift tk_mods;
        alt_l := tk_Alt_L tk_mods; alt_r := tk_Alt_R tk_mods;
        meta := tk_Meta tk_mods; super := tk_Super tk_mods;
        comment := "Tk keysym=" +:+ keysym event +:+ ", keycode=" +:+
                   pretty (keycode event) |}).
Proof.
  unfold TK_MODIFIER_KEYSYMS. intros Hks.
  repeat (apply not_elem_of_cons in Hks as [? Hks]).
  unfold on_keypress_tk. simpl. by no_modifier.
Qed.

Lemma on_keyrelease_tk_non_modifier (tk_mods : TkMods) (event : TkEvent) :
  keysym event ∉ TK_MODIFIER_KEYSYMS → on_keyrelease_tk tk_mods event = tk_mods.
Proof.
  unfold TK_MODIFIER_KEYSYMS. intros Hks.
  repeat (apply not_elem_of_cons in Hks as [? Hks]).
  unfold on_keyrelease_tk. simpl. by no_modifier.
Qed.

Lemma evdev_key_non_modifier (ev_mods : EvMods) (data : EvKey) :
  keyname data ∉ EV_MODIFIER_KEYNAMES →
  evdev_key ev_mods data =
    if bool_decide (keystate data = key_down) &&
       negb (startswith (keyname data) "KEY_LEFT" || startswith (keyname data) "KEY_RIGHT")
    then (ev_mods,
          Some {| source := "evdev"; key := keyname data; char := "";
                  ctrl := ev_Ctrl ev_mods; shift := ev_Shift ev_mods;
                  alt_l := ev_Alt_L ev_mods; alt_r := ev_Alt_R ev_mods;
                  meta := false; super := ev_Super ev_mods;
                  comment := "scancode=" +:+ pretty (scancode data) |})
    else (ev_mods, None).
Proof.
  unfold EV_MODIFIER_KEYNAMES. intros Hks.
  repeat (apply not_elem_of_cons in Hks as [? Hks]).
  unfold evdev_key. by no_modifier.
Qed.

(** C8. A press of a key that is not one of the modifier keys leaves every
    flag of the backend as it was, in the Tk handler and in the evdev loop,
    and the event built for it carries the flags as they were. *)
Theorem non_modifier_press_keeps_flags (tk_mods : TkMods) (event : TkEvent)
    (ev_mods : EvMods) (data : EvKey) :
  keysym event ∉ TK_MODIFIER_KEYSYMS →
  keyname data ∉ EV_MODIFIER_KEYNAMES →
  (on_keypress_tk tk_mods event).1 = tk_mods ∧
  (let info := (on_keypress_tk tk_mods event).2 in
   shift info = tk_Shift tk_mods ∧ alt_l info = tk_Alt_L tk_mods ∧
   alt_r info = tk_Alt_R tk_mods ∧ meta info = tk_Meta tk_mods ∧
   super info = tk_Super tk_mods) ∧
  (evdev_key ev_mods data).1 = ev_mods ∧
  (∀ info, (evdev_key ev_mods data).2 = Some info →
     ctrl info = ev_Ctrl ev_mods ∧ shift info = ev_Shift ev_mods ∧
     alt_l info = ev_Alt_L ev_mods ∧ alt_r info = ev_Alt_R ev_mods ∧
     super info = ev_Super ev_mods).
Proof.
  intros Htk Hev.
  rewrite (on_keypress_tk_non_modifier tk_mods event Htk).
  rewrite (evdev_key_non_modifier ev_mods data Hev).
  split; [done |]. split; [done |].
  case_match; simpl; (split; [done |]); [|done].
  by intros info [= <-].
Qed.

(** C2, at the keys the code takes for modifiers by their prefix. A press of
    [KEY_LEFTBRACE], [KEY_RIGHTBRACE], [KEY_LEFT] or [KEY_RIGHT] is the press
    of a key that is no modifier, and nothing is put on the queue for it. *)
Theorem evdev_left_right_prefix_is_silent (ev_mods : EvMods) :
  (("KEY_LEFTBRACE" ∉ EV_MODIFIER_KEYNAMES) ∧
   evdev_key ev_mods (key_press 26 "KEY_LEFTBRACE") = (ev_mods, None)) ∧
  (("KEY_RIGHTBRACE" ∉ EV_MODIFIER_KEYNAMES) ∧
   evdev_key ev_mods (key_press 27 "KEY_RIGHTBRACE") = (ev_mods, None)) ∧
  (("KEY_LEFT" ∉ EV_MODIFIER_KEYNAMES) ∧
   evdev_key ev_mods (key_press 105 "KEY_LEFT") = (ev_mods, None)) ∧
  (("KEY_RIGHT" ∉ EV_MODIFIER_KEYNAMES) ∧
   evdev_key ev_mods (key_press 106 "KEY_RIGHT") = (ev_mods, None)).
Proof.
  repeat split; try reflexivity;
    unfold EV_MODIFIER_KEYNAMES; intros Hin; by decompose_list_elem_of.
Qed.

(** What the evdev loop does put on the queue: a press of a key whose name
    starts neither with [KEY_LEFT] nor with [KEY_RIGHT] gives an event with
    the flags of the moment and no character. *)
Lemma evdev_key_emits (ev_mods : EvMods) (data : EvKey) :
  keystate data = key_down →
  startswith (keyname data) "KEY_LEFT" = false →
  startswith (keyname data) "KEY_RIGHT" = false →
  evdev_key ev_mods data =
    (ev_mods,
     Some {| source := "evdev"; key := keyname data; char := "";
             ctrl := ev_Ctrl ev_mods; shift := ev_Shift ev_mods;
             alt_l := ev_Alt_L ev_mods; alt_r := ev_Alt_R ev_mods;
             meta := false; super := ev_Super ev_mods;
             comment := "scancode=" +:+ pretty (scancode data) |}).
Proof.
  intros Hdown Hl Hr.
  assert (keyname data ∉ EV_MODIFIER_KEYNAMES) as Hnm.
  { unfold EV_MODIFIER_KEYNAMES. intros Hin.
    repeat (apply elem_of_cons in Hin as [Heq|Hin]; [rewrite Heq in *; discriminate |]).
    by apply elem_of_nil in Hin. }
  rewrite (evdev_key_non_modifier ev_mods data Hnm), Hl, Hr.
  by rewrite bool_decide_eq_true_2.
Qed.


Section live.
Context `{Unicode}.








End live.

(** ** The dead symbols of the table *)

(** C1, at a key that holds the three dead symbols of the table. The table
    maps them to a grave accent, an acute accent and a tilde, yet
    [keysym_to_char] returns their own names, and the index built from the
    key has no entry at all: none for the three characters. *)
Theorem dead_symbols_of_table_not_indexed :
  KbmapQmkHelper.KEYSYM_TO_CHAR !! "dead_grave" = Some "`" ∧
  KbmapQmkHelper.KEYSYM_TO_CHAR !! "dead_acute" = Some "´" ∧
  KbmapQmkHelper.KEYSYM_TO_CHAR !! "dead_tilde" = Some "~" ∧
  KbmapQmkHelper.keysym_to_char "dead_grave" = Some "dead_grave" ∧
  KbmapQmkHelper.keysym_to_char "dead_acute" = Some "dead_acute" ∧
  KbmapQmkHelper.keysym_to_char "dead_tilde" = Some "dead_tilde" ∧
  let keymap := KbmapQmkHelper.parse_xmodmap_pke
                  [Keycode 49 ["dead_grave"; "dead_acute"; "dead_tilde"]] in
  keymap = [(49%Z, ["dead_grave"; "dead_acute"; "dead_tilde"; "NoSymbol"])] ∧
  KbmapQmkHelper.build_positions keymap !! "`" = None ∧
  KbmapQmkHelper.build_positions keymap !! "´" = None ∧
  KbmapQmkHelper.build_positions keymap !! "~" = None.
Proof. repeat split; by vm_compute. Qed.

(** ** Characters that are not in the index *)

Section missing.
Context `{Unicode}.

Lemma PK_label_scan_total (level_syms : list string) (idx : list nat) :
  Forall (λ i, i < length level_syms) idx →
  is_Some (KeymapProgrammingKeys.label_scan level_syms idx).
Proof.
  induction 1 as [|i idx Hi _ IH]; simpl; [by eexists |].
  destruct (lookup_lt_is_Some_2 _ _ Hi) as [sym ->]. simpl.
  destruct (KeymapProgrammingKeys.keysym_to_char sym) as [ch|]; [|done].
  by case_match.
Qed.

Lemma PK_prefer_key_label_total (level_syms : list string) :
  length level_syms = 4 → is_Some (KeymapProgrammingKeys.prefer_key_label level_syms).
Proof.
  intros Hlen. unfold KeymapProgrammingKeys.prefer_key_label.
  destruct (PK_label_scan_total level_syms [0; 1; 2; 3]) as [r ->].
  { repeat constructor; lia. }
  simpl. destruct r as [ch|]; [by eexists |].
  destruct level_syms as [|s0 ?]; [done | by eexists].
Qed.

Lemma found_row_total (want : string) (t : occurrence) :
  length (occ_row t) = 4 →
  ∃ r, KeymapProgrammingKeys.found_row want t = Some r ∧ head r = Some want.
Proof.
  destruct t as [[[code lvl] sym] full_syms]. unfold occ_row. simpl. intros Hlen.
  destruct (PK_prefer_key_label_total full_syms Hlen) as [label Hlabel].
  unfold KeymapProgrammingKeys.found_row. rewrite Hlabel. simpl. by eexists.
Qed.

Lemma first_lowest_elem_of (t : occurrence) (found : list occurrence) :
  first_lowest t found → t ∈ found.
Proof. intros (pre & post & -> & _). apply elem_of_app. right. by left. Qed.

Lemma find_char_positions_rows (pke : list pke_line) (ch : string)
    (found : list occurrence) :
  KeymapProgrammingKeys.find_char_positions (KeymapProgrammingKeys.parse_pke pke) !! ch
    = Some found →
  found ≠ [] ∧ Forall (λ t, length (occ_row t) = 4) found.
Proof.
  intros Hf. destruct (find_char_positions_ok _ ch found Hf) as [Hne Hall].
  split; [done |]. eapply Forall_impl; [exact Hall |].
  intros t (Hkey & _). rewrite parse_pke_same in Hkey.
  apply parse_xmodmap_pke_rows in Hkey as (tokens & _ & ->). apply pad4_length.
Qed.

Section rows.
Variable positions : gmap string (list occurrence).
Variable show_missing : bool.
Hypothesis positions_rows : ∀ ch found,
  positions !! ch = Some found →
  found ≠ [] ∧ Forall (λ t, length (occ_row t) = 4) found.

(** One turn of the loop adds the row of a character that was found, the
    placeholder row of one that was not when [--all] is given, nothing
    otherwise; a row starts with the character it is for. *)
Lemma PK_main_step_spec (rows : list (list string)) (want : string) :
  ∃ new,
    KeymapProgrammingKeys.main_step positions show_missing rows want = Some (rows ++ new) ∧
    Forall (λ r, head r = Some want) new ∧
    (positions !! want = None →
     new = if show_missing then [KeymapProgrammingKeys.missing_row want] else []).
Proof.
  unfold KeymapProgrammingKeys.main_step.
  destruct (positions !! want) as [found|] eqn:Hf.
  - destruct (positions_rows _ _ Hf) as [Hne H4].
    destruct (sort_by_lvl_head found Hne) as (t & Hhd & Hlow).
    destruct found as [|x l]; [done |]. rewrite Hhd. simpl.
    rewrite Forall_forall in H4.
    destruct (found_row_total want t (H4 t (first_lowest_elem_of _ _ Hlow)))
      as (r & -> & Hr).
    simpl. exists [r]. split; [done |]. split; [|done]. by apply Forall_singleton.
  - exists (if show_missing then [KeymapProgrammingKeys.missing_row want] else []).
    destruct show_missing; simpl.
    + split; [done |]. split; [|done]. by apply Forall_singleton.
    + rewrite app_nil_r. split; [done |]. split; [apply Forall_nil_2 | done].
Qed.

Lemma PK_rows_spec (wanted : list string) (rows : list (list string)) :
  ∃ out,
    foldl (λ rows want,
             rows ≫= λ rows, KeymapProgrammingKeys.main_step positions show_missing rows want)
          (Some rows) wanted = Some (rows ++ out) ∧
    (∀ r, r ∈ out →
       ∃ want, want ∈ wanted ∧ head r = Some want ∧
               (positions !! want = None →
                show_missing = true ∧ r = KeymapProgrammingKeys.missing_row want)) ∧
    (∀ want, want ∈ wanted → positions !! want = None → show_missing = true →
       KeymapProgrammingKeys.missing_row want ∈ out).
Proof.
  revert rows. induction wanted as [|w wanted IH]; intros rows.
  - exists []. rewrite app_nil_r. split; [done |].
    split; [by intros r ?%elem_of_nil | by intros want ?%elem_of_nil].
  - destruct (PK_main_step_spec rows w) as (new & Hstep & Hhead & Hmiss).
    destruct (IH (rows ++ new)) as (out & Hfold & Hout & Hin).
    exists (new ++ out). simpl. rewrite Hstep. rewrite Hfold, app_assoc.
    split; [done |]. split.
    + intros r [Hr|Hr]%elem_of_app.
      * exists w. split; [by left |]. rewrite Forall_forall in Hhead.
        split; [by apply Hhead |]. intros Hnone. rewrite (Hmiss Hnone) in Hr.
        destruct show_missing; [|by apply elem_of_nil in Hr].
        apply list_elem_of_singleton in Hr. by split.
      * destruct (Hout r Hr) as (want & Hw & Hrest). exists want. split; [by right | done].
    + intros want [->|Hw]%elem_of_cons Hnone Hshow; apply elem_of_app.
      * left. rewrite (Hmiss Hnone), Hshow. by left.
      * right. by apply Hin.
Qed.

End rows.

(** C9. For a character [c] that the index of a parsed mapping does not hold:
    under [--all] the rows have, whenever [c] is asked for, the explicit row
    [c, "—", "—", "—", "No hallado en este layout"] (the character, three
    dashes as placeholder fields and the notice), and every row that starts
    with [c] is that very row, so [c] is never merged with a found row;
    without [--all] no row starts with [c]. In both cases the loop runs to
    its end. *)
Theorem missing_character_rows (pke : list pke_line) (wanted : list string) (c : string) :
  KeymapProgrammingKeys.find_char_positions (KeymapProgrammingKeys.parse_pke pke) !! c = None →
  ∃ rows_all rows_default,
    KeymapProgrammingKeys.rows_of
      (KeymapProgrammingKeys.find_char_positions (KeymapProgrammingKeys.parse_pke pke))
      true wanted = Some rows_all ∧
    KeymapProgrammingKeys.rows_of
      (KeymapProgrammingKeys.find_char_positions (KeymapProgrammingKeys.parse_pke pke))
      false wanted = Some rows_default ∧
    (c ∈ wanted → [c; "—"; "—"; "—"; "No hallado en este layout"] ∈ rows_all) ∧
    (∀ r, r ∈ rows_all → head r = Some c →
          r = [c; "—"; "—"; "—"; "No hallado en este layout"]) ∧
    (∀ r, r ∈ rows_default → head r ≠ Some c).
Proof.
  intros Hnone. unfold KeymapProgrammingKeys.rows_of.
  destruct (PK_rows_spec _ true (find_char_positions_rows pke) wanted [])
    as (rows_all & Hall & Hall_out & Hall_in).
  destruct (PK_rows_spec _ false (find_char_positions_rows pke) wanted [])
    as (rows_default & Hdef & Hdef_out & _).
  exists rows_all, rows_default. split; [done |]. split; [done |]. split; [|split].
  - intros Hc.
    change ([c; "—"; "—"; "—"; "No hallado en este layout"])
      with (KeymapProgrammingKeys.missing_row c).
    by apply Hall_in.
  - intros r Hr Hhead. destruct (Hall_out r Hr) as (want & _ & Hw & Hmiss).
    assert (want = c) as -> by congruence.
    destruct (Hmiss Hnone) as [_ ->]. reflexivity.
  - intros r Hr Hhead. destruct (Hdef_out r Hr) as (want & _ & Hw & Hmiss).
    assert (want = c) as -> by congruence. by destruct (Hmiss Hnone).
Qed.

End missing.

(** ** The theorems at concrete inputs *)

(** The row of the key that holds the braces on the LatAm layout: its base
    symbol is a dead accent, which no rule and no table turns into a key. *)
Lemma unknown_base_marker_witness :
  (∃ qmk,
     @KbmapQmkHelper.qmk_combo_for Latin1
       (48%Z, 2, "braceleft", ["dead_acute"; "dead_diaeresis"; "braceleft"; "bracketleft"]) =
       Some (KbmapQmkHelper.level_to_combo 2, "braceleft", qmk) ∧
     str_in (KbmapQmkHelper.unknown_base
               (if decide ("dead_acute" ≠ "NoSymbol") then "dead_acute" else "braceleft")) qmk
       = true ∧
     marker_symbol qmk =
       Some (if decide ("dead_acute" ≠ "NoSymbol") then "dead_acute" else "braceleft")) ∧
  @KeyboardComboInspector.qmk_from_char_and_mods Latin1 (Some "@") false true =
    "RALT(<KC_BASE_DESCONOCIDA>)".
Proof.
  apply (@unknown_base_marker Latin1 48%Z 2 "braceleft"
           ["dead_acute"; "dead_diaeresis"; "braceleft"; "bracketleft"]
           "dead_acute" "{" (Some "@") false true); by vm_compute.
Defined.

(** The letter [a] found first at level 2 of one key, then at level 0 of
    another: the second entry is the one chosen. *)
Lemma lowest_level_entry_is_chosen_witness :
  ∃ t,
    first_lowest t [(10%Z, 2, "a", ["1"; "exclam"; "a"; "NoSymbol"]);
                    (38%Z, 0, "a", ["a"; "A"; "NoSymbol"; "NoSymbol"])] ∧
    (∀ rows,
       @KbmapQmkHelper.main_step Latin1
         ({["a" := [(10%Z, 2, "a", ["1"; "exclam"; "a"; "NoSymbol"]);
                    (38%Z, 0, "a", ["a"; "A"; "NoSymbol"; "NoSymbol"])]]}, rows) "a" =
       '(combo_hum, keysym, qmk) ← @KbmapQmkHelper.qmk_combo_for Latin1 t;
       key_label ← KbmapQmkHelper.prefer_key_label (occ_row t);
       Some (<["a" := sort_by_lvl [(10%Z, 2, "a", ["1"; "exclam"; "a"; "NoSymbol"]);
                                   (38%Z, 0, "a", ["a"; "A"; "NoSymbol"; "NoSymbol"])]]>
               {["a" := [(10%Z, 2, "a", ["1"; "exclam"; "a"; "NoSymbol"]);
                         (38%Z, 0, "a", ["a"; "A"; "NoSymbol"; "NoSymbol"])]]},
             rows ++ [["a"; if truthy combo_hum then drop_last combo_hum else "—";
                       keysym; qmk; key_label]])) ∧
    (∀ show_missing rows,
       @KeymapProgrammingKeys.main_step Latin1
         {["a" := [(10%Z, 2, "a", ["1"; "exclam"; "a"; "NoSymbol"]);
                   (38%Z, 0, "a", ["a"; "A"; "NoSymbol"; "NoSymbol"])]]}
         show_missing rows "a" =
       r ← @KeymapProgrammingKeys.found_row Latin1 "a" t; Some (rows ++ [r])).
Proof.
  apply (@lowest_level_entry_is_chosen Latin1); [by vm_compute | discriminate].
Defined.

Lemma expression_shape_by_level_witness :
  ∃ X qmk,
    @KbmapQmkHelper.qmk_base_for Latin1 (38%Z, 1, "A", ["a"; "A"; "NoSymbol"; "NoSymbol"])
      = Some X ∧
    @KbmapQmkHelper.qmk_combo_for Latin1 (38%Z, 1, "A", ["a"; "A"; "NoSymbol"; "NoSymbol"]) =
      Some (KbmapQmkHelper.level_to_combo
              (occ_lvl (38%Z, 1, "A", ["a"; "A"; "NoSymbol"; "NoSymbol"])),
            occ_sym (38%Z, 1, "A", ["a"; "A"; "NoSymbol"; "NoSymbol"]), qmk) ∧
    ((occ_lvl (38%Z, 1, "A", ["a"; "A"; "NoSymbol"; "NoSymbol"]) = 0 ∧ qmk = X) ∨
     (occ_lvl (38%Z, 1, "A", ["a"; "A"; "NoSymbol"; "NoSymbol"]) = 1 ∧
      qmk = "S(" +:+ X +:+ ")") ∨
     (occ_lvl (38%Z, 1, "A", ["a"; "A"; "NoSymbol"; "NoSymbol"]) = 2 ∧
      qmk = "RALT(" +:+ X +:+ ")") ∨
     (occ_lvl (38%Z, 1, "A", ["a"; "A"; "NoSymbol"; "NoSymbol"]) = 3 ∧
      qmk = "S(RALT(" +:+ X +:+ "))")).
Proof.
  apply (@expression_shape_by_level Latin1 [Keycode 38 ["a"; "A"]] "A"
           [(38%Z, 1, "A", ["a"; "A"; "NoSymbol"; "NoSymbol"])]);
    [by vm_compute | apply list_elem_of_here].
Defined.

(** A line of two tokens and a line of five. *)
Lemma parsed_rows_have_four_levels_witness :
  length ["ntilde"; "Ntilde"; "asciitilde"; "dead_doubleacute"] = 4 ∧
  ∃ tokens,
    Keycode 47 tokens ∈
      [Keycode 38 ["a"; "A"];
       Keycode 47 ["ntilde"; "Ntilde"; "asciitilde"; "dead_doubleacute"; "x"]] ∧
    ∀ i, i < 4 →
      ["ntilde"; "Ntilde"; "asciitilde"; "dead_doubleacute"] !! i =
      Some (default "NoSymbol" (filter (λ t, truthy t = true) tokens !! i)).
Proof.
  apply (parsed_rows_have_four_levels
           [Keycode 38 ["a"; "A"];
            Keycode 47 ["ntilde"; "Ntilde"; "asciitilde"; "dead_doubleacute"; "x"]] 47%Z).
  left. apply list_elem_of_further, list_elem_of_here.
Defined.


Lemma non_modifier_press_keeps_flags_witness :
  (on_keypress_tk tk_mods_init {| keysym := "a"; event_char := "a"; keycode := 38 |}).1
    = tk_mods_init ∧
  (let info :=
     (on_keypress_tk tk_mods_init {| keysym := "a"; event_char := "a"; keycode := 38 |}).2 in
   shift info = tk_Shift tk_mods_init ∧ alt_l info = tk_Alt_L tk_mods_init ∧
   alt_r info = tk_Alt_R tk_mods_init ∧ meta info = tk_Meta tk_mods_init ∧
   super info = tk_Super tk_mods_init) ∧
  (evdev_key ev_mods_init (key_press 30 "KEY_A")).1 = ev_mods_init ∧
  (∀ info, (evdev_key ev_mods_init (key_press 30 "KEY_A")).2 = Some info →
     ctrl info = ev_Ctrl ev_mods_init ∧ shift info = ev_Shift ev_mods_init ∧
     alt_l info = ev_Alt_L ev_mods_init ∧ alt_r info = ev_Alt_R ev_mods_init ∧
     super info = ev_Super ev_mods_init).
Proof.
  apply (non_modifier_press_keeps_flags tk_mods_init
           {| keysym := "a"; event_char := "a"; keycode := 38 |}
           ev_mods_init (key_press 30 "KEY_A")).
  - unfold TK_MODIFIER_KEYSYMS. simpl. intros Hin. by decompose_list_elem_of.
  - unfold EV_MODIFIER_KEYNAMES. simpl. intros Hin. by decompose_list_elem_of.
Defined.

(** A mapping with the key of [a] only, asked for [a] and for [b]. *)
Lemma missing_character_rows_witness :
  ∃ rows_all rows_default,
    @KeymapProgrammingKeys.rows_of Latin1
      (@KeymapProgrammingKeys.find_char_positions Latin1
         (KeymapProgrammingKeys.parse_pke [Keycode 38 ["a"; "A"]]))
      true ["a"; "b"] = Some rows_all ∧
    @KeymapProgrammingKeys.rows_of Latin1
      (@KeymapProgrammingKeys.find_char_positions Latin1
         (KeymapProgrammingKeys.parse_pke [Keycode 38 ["a"; "A"]]))
      false ["a"; "b"] = Some rows_default ∧
    ("b" ∈ ["a"; "b"] → ["b"; "—"; "—"; "—"; "No hallado en este layout"] ∈ rows_all) ∧
    (∀ r, r ∈ rows_all → head r = Some "b" →
          r = ["b"; "—"; "—"; "—"; "No hallado en este layout"]) ∧
    (∀ r, r ∈ rows_default → head r ≠ Some "b").
Proof.
  apply (@missing_character_rows Latin1 [Keycode 38 ["a"; "A"]] ["a"; "b"] "b").
  by vm_compute.
Defined.

(** * More of the code *)

(** ** The parsers *)

Lemma dict_set_keys {V} (d : list (Z * V)) (k : Z) (v : V) :
  (dict_set d k v).*1 = if decide (k ∈ d.*1) then d.*1 else d.*1 ++ [k].
Proof.
  induction d as [|[k0 v0] d IH]; [done |].
  cbn [dict_set]. destruct (decide (k0 = k)) as [->|Hne]; rewrite !fmap_cons; cbn [fst].
  - rewrite decide_True by (by left). done.
  - rewrite IH. destruct (decide (k ∈ d.*1)) as [Hin|Hin].
    + rewrite decide_True by (by right). done.
    + rewrite decide_False; [done |]. intros [?|?]%elem_of_cons; congruence.
Qed.

Lemma dict_set_NoDup {V} (d : list (Z * V)) (k : Z) (v : V) :
  NoDup d.*1 → NoDup (dict_set d k v).*1.
Proof.
  intros Hd. rewrite dict_set_keys. case_decide as Hin; [done |].
  apply NoDup_app. split; [done |]. split; [|apply NoDup_singleton].
  intros x Hx ->%list_elem_of_singleton. done.
Qed.

Lemma dict_set_elem_of {V} (d : list (Z * V)) (k : Z) (v : V) : (k, v) ∈ dict_set d k v.
Proof.
  induction d as [|[k0 v0] d IH]; cbn [dict_set]; [apply list_elem_of_here |].
  case_decide; [apply list_elem_of_here | by apply list_elem_of_further].
Qed.

Lemma dict_set_elem_of_ne {V} (d : list (Z * V)) (k k' : Z) (v v' : V) :
  k' ≠ k → (k', v') ∈ d → (k', v') ∈ dict_set d k v.
Proof.
  intros Hne. induction d as [|[k0 v0] d IH]; cbn [dict_set];
    [by intros ?%elem_of_nil |].
  intros [Heq|Hin]%elem_of_cons.
  - injection Heq as <- <-. rewrite decide_False by done. apply list_elem_of_here.
  - case_decide; apply list_elem_of_further; [done | by apply IH].
Qed.

(** A key code is stored once, however many lines name it. *)
Theorem parsed_keycodes_unique (pke : list pke_line) :
  NoDup (KbmapQmkHelper.parse_xmodmap_pke pke).*1 ∧
  NoDup (KeymapProgrammingKeys.parse_pke pke).*1.
Proof.
  change (KeymapProgrammingKeys.parse_pke pke) with (KbmapQmkHelper.parse_xmodmap_pke pke).
  cut (NoDup (KbmapQmkHelper.parse_xmodmap_pke pke).*1); [by split |].
  unfold KbmapQmkHelper.parse_xmodmap_pke.
  induction pke as [|line pke IH] using rev_ind; simpl; [apply NoDup_nil_2 |].
  rewrite foldl_snoc. destruct line as [|code tokens]; [done |]. by apply dict_set_NoDup.
Qed.

(** Of the lines that name a key code, the last one gives the row. *)
Theorem parsed_last_line_wins (before after : list pke_line) (code : Z)
    (tokens : list string) :
  (∀ tokens', Keycode code tokens' ∉ after) →
  (code, take 4 (pad4 (filter (λ t, truthy t = true) tokens))) ∈
    KbmapQmkHelper.parse_xmodmap_pke (before ++ Keycode code tokens :: after) ∧
  (code, take 4 (pad4 (filter (λ t, truthy t = true) tokens))) ∈
    KeymapProgrammingKeys.parse_pke (before ++ Keycode code tokens :: after).
Proof.
  intros Hafter.
  change (KeymapProgrammingKeys.parse_pke (before ++ Keycode code tokens :: after))
    with (KbmapQmkHelper.parse_xmodmap_pke (before ++ Keycode code tokens :: after)).
  cut ((code, take 4 (pad4 (filter (λ t, truthy t = true) tokens))) ∈
         KbmapQmkHelper.parse_xmodmap_pke (before ++ Keycode code tokens :: after));
    [by split |].
  unfold KbmapQmkHelper.parse_xmodmap_pke.
  induction after as [|line after IH] using rev_ind.
  - rewrite foldl_snoc. apply dict_set_elem_of.
  - rewrite app_comm_cons, app_assoc, foldl_snoc.
    assert (∀ tokens', Keycode code tokens' ∉ after) as Hafter'.
    { intros tokens' Hin. apply (Hafter tokens'). apply elem_of_app. by left. }
    specialize (IH Hafter'). destruct line as [|code' tokens']; [done |].
    apply dict_set_elem_of_ne; [|done]. intros <-.
    apply (Hafter tokens'). apply elem_of_app. right. by left.
Qed.

Lemma parsed_last_line_wins_witness :
  (38%Z, take 4 (pad4 (filter (λ t, truthy t = true) ["b"; "B"; "c"; "d"; "e"]))) ∈
    KbmapQmkHelper.parse_xmodmap_pke
      ([Keycode 38 ["a"; "A"]] ++ Keycode 38 ["b"; "B"; "c"; "d"; "e"] :: [Keycode 39 ["s"]]) ∧
  (38%Z, take 4 (pad4 (filter (λ t, truthy t = true) ["b"; "B"; "c"; "d"; "e"]))) ∈
    KeymapProgrammingKeys.parse_pke
      ([Keycode 38 ["a"; "A"]] ++ Keycode 38 ["b"; "B"; "c"; "d"; "e"] :: [Keycode 39 ["s"]]).
Proof.
  apply (parsed_last_line_wins [Keycode 38 ["a"; "A"]] [Keycode 39 ["s"]] 38%Z
           ["b"; "B"; "c"; "d"; "e"]).
  intros tokens' Hin. apply list_elem_of_singleton in Hin. discriminate Hin.
Defined.

(** ** The index, entry by entry *)

Section index_exact.

Variable k2c : string → option string.
Variable step : Z → list string → gmap string (list occurrence) → nat * string →
                gmap string (list occurrence).

Hypothesis step_exact : ∀ code syms pos lvl sym,
  (∃ ch, indexable k2c ch sym ∧
         step code syms pos (lvl, sym) =
         <[ch := default [] (pos !! ch) ++ [(code, lvl, sym, syms)]]> pos) ∨
  ((∀ ch, ¬ indexable k2c ch sym) ∧ step code syms pos (lvl, sym) = pos).

Lemma step_entries code syms pos lvl sym ch :
  default [] (step code syms pos (lvl, sym) !! ch) =
  default [] (pos !! ch) ++
  filter (λ t, indexable k2c ch (occ_sym t)) [(code, lvl, sym, syms)].
Proof.
  destruct (step_exact code syms pos lvl sym) as [(ch0 & Hch0 & ->)|[Hnone ->]].
  - destruct (decide (ch0 = ch)) as [->|Hne].
    + rewrite lookup_insert_eq. simpl. by rewrite filter_cons_True, filter_nil.
    + rewrite lookup_insert_ne by done. rewrite filter_cons_False, filter_nil.
      * by rewrite app_nil_r.
      * intros (_ & Hk & _). destruct Hch0 as (_ & Hk0 & _).
        unfold occ_sym in Hk. simpl in Hk. congruence.
  - rewrite filter_cons_False, filter_nil; [by rewrite app_nil_r | apply Hnone].
Qed.

Lemma row_entries code syms (l : list (nat * string)) pos ch :
  default [] (foldl (step code syms) pos l !! ch) =
  default [] (pos !! ch) ++
  filter (λ t, indexable k2c ch (occ_sym t))
         ((λ '(lvl, sym), (code, lvl, sym, syms)) <$> l).
Proof.
  revert pos. induction l as [|[lvl sym] l IH]; intros pos.
  - by rewrite fmap_nil, filter_nil, app_nil_r.
  - cbn [foldl]. rewrite IH, step_entries, fmap_cons, <-app_assoc. f_equal.
    by rewrite <-filter_app.
Qed.

Lemma keymap_entries (keymap : list (Z * list string)) pos ch :
  default [] (foldl (λ pos '(code, syms), foldl (step code syms) pos (enumerate syms))
                    pos keymap !! ch) =
  default [] (pos !! ch) ++ entries_of k2c keymap ch.
Proof.
  unfold entries_of, all_entries.
  revert pos. induction keymap as [|[code syms] keymap IH]; intros pos.
  - change ([] ≫= _) with (@nil occurrence). by rewrite filter_nil, app_nil_r.
  - cbn [foldl]. rewrite IH, row_entries, bind_cons, filter_app. by rewrite app_assoc.
Qed.

End index_exact.

Lemma KH_index_level_exact code syms pos lvl sym :
  (∃ ch, indexable KbmapQmkHelper.keysym_to_char ch sym ∧
         KbmapQmkHelper.index_level code syms pos (lvl, sym) =
         <[ch := default [] (pos !! ch) ++ [(code, lvl, sym, syms)]]> pos) ∨
  ((∀ ch, ¬ indexable KbmapQmkHelper.keysym_to_char ch sym) ∧
   KbmapQmkHelper.index_level code syms pos (lvl, sym) = pos).
Proof.
  unfold KbmapQmkHelper.index_level, indexable, KbmapQmkHelper.DEAD_PREFIX.
  case_decide as Hns; [right; split; [|done]; intros ch (? & _); done |].
  destruct (KbmapQmkHelper.keysym_to_char sym) as [ch|];
    [|right; split; [|done]; intros ch (_ & ? & _); done].
  destruct (truthy ch) eqn:Ht; simpl;
    [|right; split; [|done]; intros ch' (_ & [= <-] & ? & _); congruence].
  destruct (startswith ch "dead_") eqn:Hd;
    [right; split; [|done]; intros ch' (_ & [= <-] & _ & ?); congruence |].
  left. by exists ch.
Qed.

(** The list the index of [kbmap_qmk_helper.py] keeps for a character is
    made of the entries of the keymap whose symbol resolves to that
    character, dead names and the sentinel left out, in the order of the
    keymap and then of the levels; the character is a key of the index
    exactly when there is such an entry. *)
Theorem index_is_filtered_enumeration (keymap : list (Z * list string)) (ch : string) :
  default [] (KbmapQmkHelper.build_positions keymap !! ch) =
    entries_of KbmapQmkHelper.keysym_to_char keymap ch ∧
  (KbmapQmkHelper.build_positions keymap !! ch = None ↔
   entries_of KbmapQmkHelper.keysym_to_char keymap ch = []).
Proof.
  assert (default [] (KbmapQmkHelper.build_positions keymap !! ch) =
          entries_of KbmapQmkHelper.keysym_to_char keymap ch) as Heq.
  { unfold KbmapQmkHelper.build_positions.
    rewrite (keymap_entries _ _ KH_index_level_exact). by rewrite lookup_empty. }
  split; [done |]. rewrite <-Heq.
  destruct (KbmapQmkHelper.build_positions keymap !! ch) as [found|] eqn:Hf; simpl.
  - destruct (build_positions_ok keymap ch found Hf) as [Hne _]. by split.
  - done.
Qed.

Section same_index.
Context `{Unicode}.

Lemma keysym_to_char_agree (sym : string) :
  KeymapProgrammingKeys.keysym_to_char sym = KbmapQmkHelper.keysym_to_char sym.
Proof.
  unfold KbmapQmkHelper.keysym_to_char, KeymapProgrammingKeys.keysym_to_char,
    KbmapQmkHelper.DEAD_PREFIX, KeymapProgrammingKeys.DEAD_PREFIX.
  destruct (startswith sym "dead_") eqn:Hd; [done |].
  rewrite (KEYSYM_TO_CHAR_not_dead sym Hd).
  destruct (KeymapProgrammingKeys.KEYSYM_TO_CHAR !! sym); [done |].
  by destruct (len sym =? 1)%nat.
Qed.

Lemma index_level_agree code syms pos ls :
  KeymapProgrammingKeys.index_level code syms pos ls =
  KbmapQmkHelper.index_level code syms pos ls.
Proof.
  destruct ls as [lvl sym].
  unfold KeymapProgrammingKeys.index_level, KbmapQmkHelper.index_level,
    KbmapQmkHelper.DEAD_PREFIX, KeymapProgrammingKeys.DEAD_PREFIX.
  rewrite keysym_to_char_agree. case_decide; [done |].
  destruct (KbmapQmkHelper.keysym_to_char sym) as [ch|]; [|done].
  by destruct (truthy ch).
Qed.

Lemma foldl_agree {A B} (f g : A → B → A) (l : list B) (a : A) :
  (∀ a b, f a b = g a b) → foldl f a l = foldl g a l.
Proof.
  intros Hfg. revert a. induction l as [|b l IH]; intros a; simpl; [done |].
  by rewrite Hfg, IH.
Qed.

(** The two static resolvers build the same index from the same keymap. *)
Theorem find_char_positions_same (keymap : list (Z * list string)) :
  KeymapProgrammingKeys.find_char_positions keymap = KbmapQmkHelper.build_positions keymap.
Proof.
  unfold KeymapProgrammingKeys.find_char_positions, KbmapQmkHelper.build_positions.
  apply foldl_agree. intros pos [code syms]. apply foldl_agree. apply index_level_agree.
Qed.

End same_index.

(** ** Sorting the entries of a character *)

Lemma insert_by_lvl_perm (x : occurrence) (l : list occurrence) :
  insert_by_lvl x l ≡ₚ x :: l.
Proof.
  induction l as [|y r IH]; cbn [insert_by_lvl]; [done |].
  destruct (occ_lvl x <=? occ_lvl y)%nat; [done |].
  by rewrite IH, Permutation_swap.
Qed.

Lemma insert_by_lvl_sorted (x : occurrence) (l : list occurrence) :
  Sorted (λ a b, occ_lvl a ≤ occ_lvl b) l →
  Sorted (λ a b, occ_lvl a ≤ occ_lvl b) (insert_by_lvl x l).
Proof.
  induction 1 as [|y r Hr IH Hhd]; cbn [insert_by_lvl]; [by repeat constructor |].
  destruct (occ_lvl x <=? occ_lvl y)%nat eqn:Hle.
  - apply Nat.leb_le in Hle. by repeat constructor.
  - apply Nat.leb_gt in Hle. constructor; [done |].
    destruct Hhd as [|z r' Hz]; cbn [insert_by_lvl].
    + constructor. lia.
    + destruct (occ_lvl x <=? occ_lvl z)%nat; constructor; [lia | done].
Qed.

Lemma insert_by_lvl_filter (n : nat) (x : occurrence) (l : list occurrence) :
  filter (λ t, occ_lvl t = n) (insert_by_lvl x l) = filter (λ t, occ_lvl t = n) (x :: l).
Proof.
  induction l as [|y r IH]; cbn [insert_by_lvl]; [done |].
  destruct (occ_lvl x <=? occ_lvl y)%nat eqn:Hle; [done |].
  apply Nat.leb_gt in Hle.
  rewrite (filter_cons _ y), IH, !(filter_cons _ x), (filter_cons _ y).
  destruct (decide (occ_lvl x = n)), (decide (occ_lvl y = n)); try done. lia.
Qed.

(** What [found.sort(key=lambda t: t[1])] and [sorted(found, ...)] do to the
    entries of a character: the same entries come back, in ascending order of
    level, and the entries of one level keep the order they had. *)
Theorem sort_by_lvl_is_stable_sort (found : list occurrence) :
  sort_by_lvl found ≡ₚ found ∧
  Sorted (λ a b, occ_lvl a ≤ occ_lvl b) (sort_by_lvl found) ∧
  ∀ n, filter (λ t, occ_lvl t = n) (sort_by_lvl found) = filter (λ t, occ_lvl t = n) found.
Proof.
  induction found as [|x l (Hperm & Hsorted & Hstable)];
    [by repeat split; try constructor |].
  change (sort_by_lvl (x :: l)) with (insert_by_lvl x (sort_by_lvl l)).
  split; [by rewrite insert_by_lvl_perm, Hperm |].
  split; [by apply insert_by_lvl_sorted |].
  intros n. rewrite insert_by_lvl_filter, !(filter_cons _ x), Hstable. done.
Qed.

Lemma sort_by_lvl_sorted_id (l : list occurrence) :
  Sorted (λ a b, occ_lvl a ≤ occ_lvl b) l → sort_by_lvl l = l.
Proof.
  induction 1 as [|x l Hl IH Hhd]; [done |].
  change (sort_by_lvl (x :: l)) with (insert_by_lvl x (sort_by_lvl l)). rewrite IH.
  destruct Hhd as [|y r Hy]; cbn [insert_by_lvl]; [done |].
  by rewrite (proj2 (Nat.leb_le _ _) Hy).
Qed.

Lemma sort_by_lvl_idem (l : list occurrence) : sort_by_lvl (sort_by_lvl l) = sort_by_lvl l.
Proof.
  apply sort_by_lvl_sorted_id.
  induction l as [|x l IH]; [constructor |].
  change (sort_by_lvl (x :: l)) with (insert_by_lvl x (sort_by_lvl l)).
  by apply insert_by_lvl_sorted.
Qed.

Section again.
Context `{Unicode}.

(** [main] of [kbmap_qmk_helper.py] sorts the list of a character in place.
    A character asked for a second time gets the same row again and leaves
    the index as the first turn left it; the lists of the other characters
    are not touched. *)
Theorem resolving_again_gives_same_row (positions positions' : gmap string (list occurrence))
    (rows rows' : list (list string)) (c : string) :
  KbmapQmkHelper.main_step (positions, rows) c = Some (positions', rows') →
  ∃ new,
    rows' = rows ++ new ∧
    (∀ rows2,
       KbmapQmkHelper.main_step (positions', rows2) c = Some (positions', rows2 ++ new)) ∧
    (∀ c', c' ≠ c → positions' !! c' = positions !! c').
Proof.
  unfold KbmapQmkHelper.main_step.
  destruct (positions !! c) as [[|x l]|] eqn:Hpos.
  - intros [= <- <-]. exists []. rewrite app_nil_r. split; [done |]. split; [|done].
    intros rows2. by rewrite Hpos, app_nil_r.
  - destruct (sort_by_lvl (x :: l)) as [|first rest] eqn:Hsort; [done |].
    cbn [head]. simpl.
    destruct (KbmapQmkHelper.qmk_combo_for first) as [[[combo_hum keysym] qmk]|] eqn:Hq;
      [|done]. simpl.
    destruct (KbmapQmkHelper.prefer_key_label (occ_row first)) as [key_label|] eqn:Hl;
      [|done]. simpl.
    assert (sort_by_lvl (first :: rest) = first :: rest) as Hid
      by (rewrite <-Hsort; apply sort_by_lvl_idem).
    intros [= <- <-]. eexists. split; [reflexivity |]. split.
    + intros rows2. rewrite lookup_insert_eq, Hid. cbn [head]. simpl.
      rewrite Hq. simpl. rewrite Hl. simpl. by rewrite insert_insert_eq.
    + intros c' Hne. by rewrite lookup_insert_ne.
  - intros [= <- <-]. exists []. rewrite app_nil_r. split; [done |]. split; [|done].
    intros rows2. by rewrite Hpos, app_nil_r.
Qed.

End again.

Lemma resolving_again_gives_same_row_witness :
  ∃ new,
    [["a"; "—"; "a"; "KC_A"; "a"]] = [] ++ new ∧
    (∀ rows2,
       @KbmapQmkHelper.main_step Latin1
         ({["a" := [(38%Z, 0, "a", ["a"; "A"; "NoSymbol"; "NoSymbol"]);
                    (10%Z, 2, "a", ["1"; "exclam"; "a"; "NoSymbol"])]]}, rows2) "a" =
       Some ({["a" := [(38%Z, 0, "a", ["a"; "A"; "NoSymbol"; "NoSymbol"]);
                       (10%Z, 2, "a", ["1"; "exclam"; "a"; "NoSymbol"])]]}, rows2 ++ new)) ∧
    (∀ c', c' ≠ "a" →
       ({["a" := [(38%Z, 0, "a", ["a"; "A"; "NoSymbol"; "NoSymbol"]);
                  (10%Z, 2, "a", ["1"; "exclam"; "a"; "NoSymbol"])]]}
          : gmap string (list occurrence)) !! c' =
       ({["a" := [(10%Z, 2, "a", ["1"; "exclam"; "a"; "NoSymbol"]);
                  (38%Z, 0, "a", ["a"; "A"; "NoSymbol"; "NoSymbol"])]]}
          : gmap string (list occurrence)) !! c').
Proof.
  apply (@resolving_again_gives_same_row Latin1
           {["a" := [(10%Z, 2, "a", ["1"; "exclam"; "a"; "NoSymbol"]);
                     (38%Z, 0, "a", ["a"; "A"; "NoSymbol"; "NoSymbol"])]]}
           {["a" := [(38%Z, 0, "a", ["a"; "A"; "NoSymbol"; "NoSymbol"]);
                     (10%Z, 2, "a", ["1"; "exclam"; "a"; "NoSymbol"])]]}
           [] [["a"; "—"; "a"; "KC_A"; "a"]] "a").
  by vm_compute.
Defined.

(** ** The order of the rows *)

Section order.
Context `{Unicode}.

Section rows.
Variable positions : gmap string (list occurrence).
Variable show_missing : bool.
Hypothesis positions_rows : ∀ ch found,
  positions !! ch = Some found →
  found ≠ [] ∧ Forall (λ t, length (occ_row t) = 4) found.

Lemma PK_main_step_heads (rows : list (list string)) (want : string) :
  ∃ new,
    KeymapProgrammingKeys.main_step positions show_missing rows want = Some (rows ++ new) ∧
    head <$> new =
      if decide (is_Some (positions !! want)) then [Some want]
      else if show_missing then [Some want] else [].
Proof.
  unfold KeymapProgrammingKeys.main_step.
  destruct (positions !! want) as [found|] eqn:Hf.
  - rewrite decide_True by done.
    destruct (positions_rows _ _ Hf) as [Hne H4].
    destruct (sort_by_lvl_head found Hne) as (t & Hhd & Hlow).
    destruct found as [|x l]; [done |]. rewrite Hhd. simpl.
    rewrite Forall_forall in H4.
    destruct (found_row_total want t (H4 t (first_lowest_elem_of _ _ Hlow)))
      as (r & -> & Hr).
    simpl. exists [r]. split; [done |]. simpl. by rewrite Hr.
  - rewrite decide_False by (by intros [? ?]).
    destruct show_missing.
    + by exists [KeymapProgrammingKeys.missing_row want].
    + exists []. by rewrite app_nil_r.
Qed.

Lemma PK_rows_heads (wanted : list string) (rows : list (list string)) :
  ∃ out,
    foldl (λ rows want,
             rows ≫= λ rows, KeymapProgrammingKeys.main_step positions show_missing rows want)
          (Some rows) wanted = Some (rows ++ out) ∧
    head <$> out =
      Some <$> (if show_missing then wanted
                else filter (λ w, is_Some (positions !! w)) wanted).
Proof.
  revert rows. induction wanted as [|w wanted IH]; intros rows.
  - exists []. rewrite app_nil_r. by destruct show_missing.
  - destruct (PK_main_step_heads rows w) as (new & Hstep & Hnew).
    destruct (IH (rows ++ new)) as (out & Hfold & Hout).
    exists (new ++ out). cbn [foldl]. simpl. rewrite Hstep. simpl.
    rewrite Hfold, app_assoc. split; [done |].
    rewrite fmap_app, Hnew, Hout. rewrite filter_cons.
    destruct (decide (is_Some (positions !! w))); by destruct show_missing.
Qed.

End rows.

(** The rows [main] of [keymap_programming_keys.py] builds follow the order of
    the wanted characters: one row for each of them under [--all], one row
    for each of those the index holds otherwise; the first field of a row is
    its character. *)
Theorem rows_follow_wanted_order (pke : list pke_line) (show_missing : bool)
    (wanted : list string) :
  ∃ rows,
    KeymapProgrammingKeys.rows_of
      (KeymapProgrammingKeys.find_char_positions (KeymapProgrammingKeys.parse_pke pke))
      show_missing wanted = Some rows ∧
    head <$> rows =
      Some <$> (if show_missing then wanted
                else filter
                       (λ w, is_Some (KeymapProgrammingKeys.find_char_positions
                                        (KeymapProgrammingKeys.parse_pke pke) !! w))
                       wanted).
Proof.
  unfold KeymapProgrammingKeys.rows_of.
  destruct (PK_rows_heads _ show_missing (find_char_positions_rows pke) wanted [])
    as (rows & Hrows & Hheads).
  by exists rows.
Qed.

End order.

(** ** More of the live tracker *)

(** The Tk handlers never touch the Control flag, and a Tk event never reports
    Ctrl: the branch for [Control_L] and [Control_R] does nothing. *)
Theorem tk_never_tracks_control (tk_mods : TkMods) (event : TkEvent) :
  tk_Control (on_keypress_tk tk_mods event).1 = tk_Control tk_mods ∧
  ctrl (on_keypress_tk tk_mods event).2 = false ∧
  tk_Control (on_keyrelease_tk tk_mods event) = tk_Control tk_mods.
Proof.
  unfold on_keypress_tk, on_keyrelease_tk. cbn [fst snd ctrl].
  repeat split; repeat case_match; done.
Qed.

(** Releasing the key that was just pressed forgets the press: the flags are
    those a release alone would leave, and from the initial state they are
    all clear again. *)
Theorem tk_release_forgets_press (tk_mods : TkMods) (event : TkEvent) :
  on_keyrelease_tk (on_keypress_tk tk_mods event).1 event = on_keyrelease_tk tk_mods event ∧
  on_keyrelease_tk (on_keypress_tk tk_mods_init event).1 event = tk_mods_init.
Proof.
  unfold on_keypress_tk, on_keyrelease_tk, tk_mods_init. cbn [fst snd].
  split; repeat case_match; done.
Qed.

(** The evdev loop puts nothing on the queue for a modifier key, pressed,
    held or released. *)
Theorem evdev_modifier_keys_are_silent (ev_mods : EvMods) (data : EvKey) :
  keyname data ∈ EV_MODIFIER_KEYNAMES → (evdev_key ev_mods data).2 = None.
Proof.
  unfold EV_MODIFIER_KEYNAMES. destruct data as [code name state]. cbn [keyname].
  intros Hin. decompose_list_elem_of; subst name;
    unfold evdev_key; cbn [snd keyname keystate];
    by destruct (bool_decide (state = key_down)).
Qed.

Lemma evdev_modifier_keys_are_silent_witness :
  (evdev_key ev_mods_init (key_press 42 "KEY_LEFTSHIFT")).2 = None.
Proof.
  apply (evdev_modifier_keys_are_silent ev_mods_init (key_press 42 "KEY_LEFTSHIFT")).
  apply list_elem_of_here.
Defined.

Section evdev_suggestions.
Context `{Unicode}.

Lemma qmk_without_char (shift ralt : bool) :
  qmk_from_char_and_mods None shift ralt =
    (if shift && ralt then "S(RALT(<KC_BASE_DESCONOCIDA>))"
     else if ralt then "RALT(<KC_BASE_DESCONOCIDA>)"
     else if shift then "S(<KC_BASE_DESCONOCIDA>)"
     else "<KC_BASE_DESCONOCIDA>").
Proof. by destruct shift, ralt. Qed.

Lemma update_evdev_qmk_no_char (info : KeyEventInfo) :
  char info = "" →
  update_evdev_qmk info = qmk_from_char_and_mods None (shift info) (alt_r info).
Proof. unfold update_evdev_qmk, altgr. by intros ->. Qed.

Lemma evdev_key_char (ev_mods : EvMods) (data : EvKey) (info : KeyEventInfo) :
  (evdev_key ev_mods data).2 = Some info →
  source info = "evdev" ∧ char info = "" ∧ meta info = false.
Proof.
  unfold evdev_key. case_match; cbn [snd]; [|done]. by intros [= <-].
Qed.

Lemma evdev_loop_snoc (ev_mods : EvMods) (events : list InputEvent) (event : InputEvent) :
  evdev_loop ev_mods (events ++ [event]) =
    match event with
    | EV_KEY data =>
        ((evdev_key (evdev_loop ev_mods events).1 data).1,
         (evdev_loop ev_mods events).2 ++
         option_list (evdev_key (evdev_loop ev_mods events).1 data).2)
    | EV_OTHER => evdev_loop ev_mods events
    end.
Proof.
  unfold evdev_loop. rewrite foldl_snoc.
  destruct (foldl _ _ events) as [m q]. destruct event as [data|]; [|done].
  cbn [fst snd]. by destruct (evdev_key m data).
Qed.

(** Whatever the device sends, an event the evdev loop puts on the queue has
    no character and no Meta flag, and the suggestion shown for it is the
    marker of an unknown base key under the modifiers: the evdev side never
    names a key code. *)
Theorem evdev_suggestions_are_unknown (ev_mods : EvMods) (events : list InputEvent)
    (info : KeyEventInfo) :
  info ∈ (evdev_loop ev_mods events).2 →
  source info = "evdev" ∧ char info = "" ∧ meta info = false ∧
  update_evdev_qmk info ∈
    ["<KC_BASE_DESCONOCIDA>"; "S(<KC_BASE_DESCONOCIDA>)";
     "RALT(<KC_BASE_DESCONOCIDA>)"; "S(RALT(<KC_BASE_DESCONOCIDA>))"].
Proof.
  intros Hin.
  assert (source info = "evdev" ∧ char info = "" ∧ meta info = false) as (Hs & Hc & Hm).
  { revert Hin. induction events as [|event events IH] using rev_ind.
    - by intros ?%elem_of_nil.
    - rewrite evdev_loop_snoc. destruct event as [data|]; [|done].
      cbn [snd]. intros [Hin|Hin]%elem_of_app; [by apply IH |].
      destruct (evdev_key _ data).2 as [info'|] eqn:Hk; [|by apply elem_of_nil in Hin].
      apply list_elem_of_singleton in Hin as ->. by eapply evdev_key_char. }
  repeat (split; [done |]).
  rewrite (update_evdev_qmk_no_char info Hc), qmk_without_char.
  destruct (shift info), (alt_r info); simpl; set_solver.
Qed.

(** Right Alt pressed, then a key whose name starts neither with [KEY_LEFT]
    nor with [KEY_RIGHT]: one event is queued, with the AltGr flag set and no
    character, and its suggestion is the unknown marker inside [RALT(...)],
    inside [S(...)] as well when Shift was held. *)
Theorem evdev_right_alt_then_key (ev_mods : EvMods) (code : Z) (name : string) :
  startswith name "KEY_LEFT" = false →
  startswith name "KEY_RIGHT" = false →
  ∃ info,
    (evdev_loop ev_mods
       [EV_KEY (key_press 100 "KEY_RIGHTALT"); EV_KEY (key_press code name)]).2 = [info] ∧
    key info = name ∧ char info = "" ∧ alt_r info = true ∧
    update_evdev_qmk info =
      (if ev_Shift ev_mods then "S(RALT(<KC_BASE_DESCONOCIDA>))"
       else "RALT(<KC_BASE_DESCONOCIDA>)").
Proof.
  intros Hl Hr.
  change [EV_KEY (key_press 100 "KEY_RIGHTALT"); EV_KEY (key_press code name)]
    with (([] ++ [EV_KEY (key_press 100 "KEY_RIGHTALT")]) ++ [EV_KEY (key_press code name)]).
  rewrite !evdev_loop_snoc.
  change (evdev_loop ev_mods []) with (ev_mods, @nil KeyEventInfo). cbn [fst snd].
  change (evdev_key ev_mods (key_press 100 "KEY_RIGHTALT")) with
    ({| ev_Shift := ev_Shift ev_mods; ev_Ctrl := ev_Ctrl ev_mods;
        ev_Alt_L := ev_Alt_L ev_mods; ev_Alt_R := true;
        ev_Meta := ev_Meta ev_mods; ev_Super := ev_Super ev_mods |},
     @None KeyEventInfo).
  cbn [fst snd]. rewrite (evdev_key_emits _ (key_press code name)) by done.
  eexists. split; [reflexivity |]. cbn [key char alt_r keyname key_press].
  repeat (split; [done |]).
  rewrite update_evdev_qmk_no_char by done. rewrite qmk_without_char.
  cbn [shift alt_r ev_Shift ev_Alt_R]. by destruct (ev_Shift ev_mods).
Qed.

(** In the Tk handler and in the shared suggestion function, an ASCII letter
    or digit always has a key code: [KC_] followed by the letter in upper
    case or by the digit, wrapped according to the two flags. *)
Theorem suggestion_for_ascii_alnum (a : ascii) (shift ralt : bool) :
  ascii_isalpha a || ascii_isdigit a = true →
  lookup_kc (Some (String a "")) = Some ("KC_" +:+ String (ascii_upper a) "") ∧
  qmk_from_char_and_mods (Some (String a "")) shift ralt =
    (if shift && ralt then "S(RALT(" +:+ "KC_" +:+ String (ascii_upper a) "" +:+ "))"
     else if ralt then "RALT(" +:+ "KC_" +:+ String (ascii_upper a) "" +:+ ")"
     else if shift then "S(" +:+ "KC_" +:+ String (ascii_upper a) "" +:+ ")"
     else "KC_" +:+ String (ascii_upper a) "").
Proof.
  intros Ha.
  assert (lookup_kc (Some (String a "")) = Some ("KC_" +:+ String (ascii_upper a) ""))
    as Hkc.
  { destruct a as [[] [] [] [] [] [] [] []]; try discriminate Ha; by vm_compute. }
  split; [done |]. unfold qmk_from_char_and_mods. rewrite Hkc. by destruct shift, ralt.
Qed.

End evdev_suggestions.

Lemma evdev_suggestions_are_unknown_witness :
  source {| source := "evdev"; key := "KEY_A"; char := ""; ctrl := false; shift := false;
            alt_l := false; alt_r := true; meta := false; super := false;
            comment := "scancode=30" |} = "evdev" ∧
  char {| source := "evdev"; key := "KEY_A"; char := ""; ctrl := false; shift := false;
          alt_l := false; alt_r := true; meta := false; super := false;
          comment := "scancode=30" |} = "" ∧
  meta {| source := "evdev"; key := "KEY_A"; char := ""; ctrl := false; shift := false;
          alt_l := false; alt_r := true; meta := false; super := false;
          comment := "scancode=30" |} = false ∧
  @update_evdev_qmk Latin1
    {| source := "evdev"; key := "KEY_A"; char := ""; ctrl := false; shift := false;
       alt_l := false; alt_r := true; meta := false; super := false;
       comment := "scancode=30" |} ∈
    ["<KC_BASE_DESCONOCIDA>"; "S(<KC_BASE_DESCONOCIDA>)";
     "RALT(<KC_BASE_DESCONOCIDA>)"; "S(RALT(<KC_BASE_DESCONOCIDA>))"].
Proof.
  apply (@evdev_suggestions_are_unknown Latin1 ev_mods_init
           [EV_KEY (key_press 100 "KEY_RIGHTALT"); EV_OTHER; EV_KEY (key_press 30 "KEY_A")]).
  vm_compute. apply list_elem_of_here.
Defined.

Lemma evdev_right_alt_then_key_witness :
  ∃ info,
    (evdev_loop ev_mods_init
       [EV_KEY (key_press 100 "KEY_RIGHTALT"); EV_KEY (key_press 30 "KEY_A")]).2 = [info] ∧
    key info = "KEY_A" ∧ char info = "" ∧ alt_r info = true ∧
    @update_evdev_qmk Latin1 info =
      (if ev_Shift ev_mods_init then "S(RALT(<KC_BASE_DESCONOCIDA>))"
       else "RALT(<KC_BASE_DESCONOCIDA>)").
Proof.
  apply (@evdev_right_alt_then_key Latin1 ev_mods_init 30%Z "KEY_A"); reflexivity.
Defined.

Lemma suggestion_for_ascii_alnum_witness :
  @lookup_kc Latin1 (Some (String "q" "")) = Some ("KC_" +:+ String (ascii_upper "q") "") ∧
  @qmk_from_char_and_mods Latin1 (Some (String "q" "")) false true =
    "RALT(" +:+ "KC_" +:+ String (ascii_upper "q") "" +:+ ")".
Proof.
  apply (@suggestion_for_ascii_alnum Latin1 "q"%char false true). reflexivity.
Defined.

(** ** The label of a key *)

Lemma KH_label_scan_spec (pre level_syms : list string) (n : nat) :
  KbmapQmkHelper.label_scan (pre ++ level_syms) (seq (length pre) n) =
    match first_printable (take n level_syms) with
    | Some ch => Some (Some ch)
    | None => if decide (n ≤ length level_syms) then Some None else None
    end.
Proof.
  revert pre level_syms. induction n as [|n IH]; intros pre level_syms.
  - rewrite take_0. cbn [seq KbmapQmkHelper.label_scan first_printable].
    by rewrite decide_True by lia.
  - cbn [seq KbmapQmkHelper.label_scan]. destruct level_syms as [|sym rest].
    + rewrite app_nil_r, (lookup_ge_None_2 pre (length pre)) by done.
      cbn [take first_printable length]. by rewrite decide_False by lia.
    + rewrite list_lookup_middle by done. cbn [mbind option_bind].
      rewrite firstn_cons. cbn [first_printable length]. unfold printable.
      unfold KbmapQmkHelper.DEAD_PREFIX.
      replace (pre ++ sym :: rest) with ((pre ++ [sym]) ++ rest) by (by rewrite <-app_assoc).
      replace (S (length pre)) with (length (pre ++ [sym]))
        by (rewrite length_app; simpl; lia).
      rewrite IH.
      destruct (KbmapQmkHelper.keysym_to_char sym) as [ch|].
      * destruct (truthy ch && negb (startswith ch "dead_")); [done |].
        destruct (first_printable (take n rest)); [done |].
        destruct (decide (n ≤ length rest)).
        -- by rewrite decide_True by lia.
        -- by rewrite decide_False by lia.
      * destruct (first_printable (take n rest)); [done |].
        destruct (decide (n ≤ length rest)).
        -- by rewrite decide_True by lia.
        -- by rewrite decide_False by lia.
Qed.

(** [prefer_key_label] of [kbmap_qmk_helper.py] returns the character of the
    first of the four levels that has one which is not a dead name. When no
    level has one, a row of four entries or more gets the character of its
    first symbol, dead name included, or that symbol itself; a shorter row
    makes the function raise. *)
Theorem prefer_key_label_spec (level_syms : list string) :
  KbmapQmkHelper.prefer_key_label level_syms =
    match first_printable (take 4 level_syms) with
    | Some ch => Some ch
    | None =>
        if decide (4 ≤ length level_syms)
        then Some (or_else (KbmapQmkHelper.keysym_to_char (default "" (head level_syms)))
                           (default "" (head level_syms)))
        else None
    end.
Proof.
  unfold KbmapQmkHelper.prefer_key_label.
  change [0; 1; 2; 3] with (seq (length (@nil string)) 4).
  rewrite <-(app_nil_l level_syms) at 1. rewrite KH_label_scan_spec.
  destruct (first_printable (take 4 level_syms)); [done |].
  destruct (decide (4 ≤ length level_syms)) as [Hlen|Hlen]; [|done].
  destruct level_syms as [|s0 rest]; [simpl in Hlen; lia | done].
Qed.

(** ** How the programs end *)




Section outcomes.
Context `{Unicode}.








End outcomes.

(** ** Keys of letters and digits *)

Section letters.
Context `{Unicode}.

Lemma ascii_alnum_direct (a : ascii) :
  ascii_isalpha a || ascii_isdigit a = true →
  KbmapQmkHelper.qmk_base_direct (String a "") = Some ("KC_" +:+ String (ascii_upper a) "").
Proof.
  intros Ha. unfold KbmapQmkHelper.qmk_base_direct, isalpha, isdigit, upper.
  assert (byte_is_ascii a = true ∧ byte_is_cont a = false) as [Hascii Hcont]
    by (destruct a as [[] [] [] [] [] [] [] []]; try discriminate Ha; done).
  assert (chars (String a "") = [String a ""]) as Hchars
    by (unfold chars; cbn [split_cp]; by rewrite Hcont).
  unfold len. rewrite Hchars. cbn [length Nat.eqb forallb fmap list_fmap andb].
  unfold cp_isalpha, cp_isdigit, cp_upper. rewrite Hascii.
  destruct (ascii_isalpha a) eqn:Halpha; cbn [andb].
  - done.
  - cbn [orb] in Ha. rewrite Ha. cbn [andb]. unfold ascii_upper.
    assert (ascii_islower a = false) as ->; [|done].
    unfold ascii_isalpha in Halpha. by apply orb_false_iff in Halpha as [_ ?].
Qed.

(** In the static resolver, a key whose first symbol is an ASCII letter or
    digit needs no table: at every level its expression is [KC_] followed by
    the letter in upper case, or by the digit, under the modifiers of the
    level, whatever the other symbols of the row. *)
Theorem static_key_of_ascii_alnum (a : ascii) (code : Z) (lvl : nat) (sym : string)
    (rest : list string) :
  ascii_isalpha a || ascii_isdigit a = true →
  KbmapQmkHelper.qmk_combo_for (code, lvl, sym, String a "" :: rest) =
    Some (KbmapQmkHelper.level_to_combo lvl, sym,
          KbmapQmkHelper.stack_mods lvl ("KC_" +:+ String (ascii_upper a) "")).
Proof.
  intros Ha. unfold KbmapQmkHelper.qmk_combo_for, KbmapQmkHelper.qmk_base_for.
  cbn [lookup list_lookup mbind option_bind].
  rewrite decide_True by (destruct a as [[] [] [] [] [] [] [] []]; done).
  by rewrite (ascii_alnum_direct a Ha).
Qed.

End letters.

Lemma static_key_of_ascii_alnum_witness :
  @KbmapQmkHelper.qmk_combo_for Latin1
    (38%Z, 1, "A", String "a" "" :: ["A"; "NoSymbol"; "NoSymbol"]) =
    Some (KbmapQmkHelper.level_to_combo 1, "A",
          KbmapQmkHelper.stack_mods 1 ("KC_" +:+ String (ascii_upper "a") "")).
Proof.
  apply (@static_key_of_ascii_alnum Latin1 "a"%char 38%Z 1 "A"
           ["A"; "NoSymbol"; "NoSymbol"]).
  reflexivity.
Defined.
